(** * FadeForge: the gradient-mask compositor and the export file name

    A shallow embedding of the two pieces of logic of the application:

    - the rendering effect of [components/CanvasWorkspace] (draw the image,
      build a linear or radial gradient, add four colour stops, fill the
      canvas with the [destination-in] operator);
    - the file-name derivation of [handleDownload] in [App.tsx].

    JavaScript numbers are idealised as real numbers (no rounding, no NaN,
    no infinities).  The browser's Canvas 2D interface is not part of the
    repository; the module [Canvas2D] gives the small part of it that the
    component calls, following the HTML Canvas 2D and W3C Compositing
    standards: the bitmap of a canvas holds 8-bit pixels premultiplied by
    alpha, and a pixel read back from it is converted to straight alpha. *)

From Stdlib Require Import Reals Lra Lia ZArith List String Ascii Bool Arith.
Import ListNotations.

Open Scope R_scope.

(** ** Exceptions of the platform, as an error monad *)

Inductive DOMException : Type :=
| IndexSizeError
| TypeError.

Inductive Result (A : Type) : Type :=
| Ok (a : A)
| Throw (e : DOMException).

Arguments Ok {A} a.
Arguments Throw {A} e.

Definition bind {A B : Type} (c : Result A) (k : A -> Result B) : Result B :=
  match c with
  | Ok a => k a
  | Throw e => Throw e
  end.

Notation "x <- c ;; k" := (bind c (fun x => k))
  (at level 61, c at next level, right associativity).

(** ** types.ts *)

Inductive GradientType : Type :=
| linear
| radial.

Record GradientSettings : Type := {
  angle : R;
  startPoint : R;
  endPoint : R;
  invert : bool;
  type : GradientType
}.

(** ** The part of the Canvas 2D interface used by the component *)

Module Canvas2D.

(** An RGBA pixel, 8 bits a channel.  The pixels of an image and the pixels
    read back from a canvas are straight (non-premultiplied); the pixels
    stored in the bitmap of a canvas are premultiplied by alpha. *)
Record Pixel : Type := {
  red : Z;
  green : Z;
  blue : Z;
  alpha : Z
}.

Definition transparentBlack : Pixel :=
  {| red := 0; green := 0; blue := 0; alpha := 0 |}.

Definition wfPixel (p : Pixel) : Prop :=
  (0 <= red p <= 255 /\ 0 <= green p <= 255 /\
   0 <= blue p <= 255 /\ 0 <= alpha p <= 255)%Z.

(** A paint colour: channels on the 0..255 scale, alpha on the 0..1 scale,
    both as reals.  [rgba r g b a] is the CSS colour 'rgba(r,g,b,a)'. *)
Record Color : Type := {
  cr : R;
  cg : R;
  cb : R;
  ca : R
}.

Definition rgba (r g b a : R) : Color :=
  {| cr := r; cg := g; cb := b; ca := a |}.

Definition colorOfPixel (p : Pixel) : Color :=
  rgba (IZR (red p)) (IZR (green p)) (IZR (blue p)) (IZR (alpha p) / 255).

(** Modelled from the spec: the conversion of a real channel value to a
    stored byte is done by the browser; the spec gives it as round to nearest
    (here with halves upwards) and clamp to [0,255]. *)
Definition to_u8 (x : R) : Z := Z.max 0 (Z.min 255 (Zfloor (x + / 2))).

(** A decoded image (HTMLImageElement): intrinsic size and pixel grid. *)
Record Image : Type := {
  width : nat;
  height : nat;
  pixels : nat -> nat -> Pixel
}.

Definition wfImage (img : Image) : Prop :=
  forall x y, (x < width img)%nat -> (y < height img)%nat ->
              wfPixel (pixels img x y).

(** A quotient that records a zero divisor instead of hiding it. *)
Definition ratio (num den : R) : option R :=
  if Req_dec_T den 0 then None else Some (num / den).

(** *** Gradients *)

Inductive GradientGeometry : Type :=
| LinearGradient (x0 y0 x1 y1 : R)
| RadialGradient (x0 y0 r0 x1 y1 r1 : R).

Record CanvasGradient : Type := {
  geometry : GradientGeometry;
  stops : list (R * Color)
}.

Definition createLinearGradient (x0 y0 x1 y1 : R) : CanvasGradient :=
  {| geometry := LinearGradient x0 y0 x1 y1; stops := [] |}.

(** Throws IndexSizeError when a radius is negative. *)
Definition createRadialGradient (x0 y0 r0 x1 y1 r1 : R)
  : Result CanvasGradient :=
  if Rlt_dec r0 0 then Throw IndexSizeError
  else if Rlt_dec r1 0 then Throw IndexSizeError
  else Ok {| geometry := RadialGradient x0 y0 r0 x1 y1 r1; stops := [] |}.

(** Stops are kept ordered by offset; a stop added at an offset that is
    already taken goes after the ones that are there. *)
Fixpoint placeStop (offset : R) (color : Color) (l : list (R * Color))
  : list (R * Color) :=
  match l with
  | [] => [(offset, color)]
  | s :: l' =>
      if Rlt_dec offset (fst s) then (offset, color) :: s :: l'
      else s :: placeStop offset color l'
  end.

(** Throws IndexSizeError when the offset is outside 0..1. *)
Definition addColorStop (offset : R) (color : Color) (g : CanvasGradient)
  : Result CanvasGradient :=
  if Rlt_dec offset 0 then Throw IndexSizeError
  else if Rlt_dec 1 offset then Throw IndexSizeError
  else Ok {| geometry := geometry g;
             stops := placeStop offset color (stops g) |}.

Definition mix (a b u : R) : R := a + (b - a) * u.

Definition mixColor (c1 c2 : Color) (u : R) : Color :=
  {| cr := mix (cr c1) (cr c2) u; cg := mix (cg c1) (cg c2) u;
     cb := mix (cb c1) (cb c2) u; ca := mix (ca c1) (ca c2) u |}.

(** Linear interpolation, without premultiplication, between two stops. *)
Definition interpolate (s1 s2 : R * Color) (t : R) : option Color :=
  option_map (mixColor (snd s1) (snd s2))
             (ratio (t - fst s1) (fst s2 - fst s1)).

(** The colour at offset [t], for [t] beyond the offset of [prev]. *)
Fixpoint colorAfter (prev : R * Color) (rest : list (R * Color)) (t : R)
  : option Color :=
  match rest with
  | [] => Some (snd prev)
  | s :: rest' =>
      if Rle_dec t (fst s) then interpolate prev s t
      else colorAfter s rest' t
  end.

(** The colour of a gradient at offset [t]: the first stop's colour before
    it, the last stop's colour after it, interpolated in between; of the
    stops that share an offset, the first gives the colour at that offset
    and the last the colour just after it.  Without stops the gradient is
    transparent black. *)
Definition colorAt (l : list (R * Color)) (t : R) : option Color :=
  match l with
  | [] => Some (rgba 0 0 0 0)
  | s :: rest =>
      if Rle_dec t (fst s) then Some (snd s) else colorAfter s rest t
  end.

(** The gradient offset of the point [(px, py)]: the projection onto the
    segment for a linear gradient, the distance from the centre relative to
    the radii for a radial gradient with a common centre (the only radial
    form the component creates; the two-centre cone is given no value).
    [None] is the degenerate gradient, which paints nothing. *)
Definition offsetAt (geo : GradientGeometry) (px py : R) : option R :=
  match geo with
  | LinearGradient x0 y0 x1 y1 =>
      ratio ((px - x0) * (x1 - x0) + (py - y0) * (y1 - y0))
            ((x1 - x0) * (x1 - x0) + (y1 - y0) * (y1 - y0))
  | RadialGradient x0 y0 r0 x1 y1 r1 =>
      if Req_dec_T x0 x1 then
        if Req_dec_T y0 y1 then
          ratio (sqrt ((px - x0) * (px - x0) + (py - y0) * (py - y0)) - r0)
                (r1 - r0)
        else None
      else None
  end.

Definition gradientColorAt (g : CanvasGradient) (px py : R) : option Color :=
  match offsetAt (geometry g) px py with
  | Some t => colorAt (stops g) t
  | None => None
  end.

(** *** The drawing state *)

Inductive CompositeOp : Type :=
| source_over
| destination_in.

Inductive FillStyle : Type :=
| FillColor (c : Color)
| FillGradient (g : CanvasGradient).

Record Canvas : Type := {
  canvas_width : nat;
  canvas_height : nat;
  bitmap : nat -> nat -> Pixel;
  globalCompositeOperation : CompositeOp;
  fillStyle : FillStyle
}.

Definition paintAt (style : FillStyle) (px py : R) : Color :=
  match style with
  | FillColor c => c
  | FillGradient g =>
      match gradientColorAt g px py with
      | Some c => c
      | None => rgba 0 0 0 0
      end
  end.

(** Porter-Duff compositing of a straight source colour onto a stored,
    premultiplied pixel: every stored channel, alpha included, is combined in
    the same way and rounded to a byte. *)
Definition blend (op : CompositeOp) (src : Color) (dst : Pixel) : Pixel :=
  match op with
  | source_over =>
      let keep := 1 - ca src in
      {| red := to_u8 (ca src * cr src + IZR (red dst) * keep);
         green := to_u8 (ca src * cg src + IZR (green dst) * keep);
         blue := to_u8 (ca src * cb src + IZR (blue dst) * keep);
         alpha := to_u8 (255 * ca src + IZR (alpha dst) * keep) |}
  | destination_in =>
      {| red := to_u8 (IZR (red dst) * ca src);
         green := to_u8 (IZR (green dst) * ca src);
         blue := to_u8 (IZR (blue dst) * ca src);
         alpha := to_u8 (IZR (alpha dst) * ca src) |}
  end.

(** The straight pixel read back from a stored one (getImageData and the
    PNG of toDataURL): a fully transparent pixel is transparent black, any
    other has its colour channels divided by its alpha. *)
Definition unpremultiply (p : Pixel) : Pixel :=
  if Z.eqb (alpha p) 0 then transparentBlack
  else {| red := to_u8 (IZR (red p) * 255 / IZR (alpha p));
          green := to_u8 (IZR (green p) * 255 / IZR (alpha p));
          blue := to_u8 (IZR (blue p) * 255 / IZR (alpha p));
          alpha := alpha p |}.

Definition inRect (x y w h px py : nat) : bool :=
  (x <=? px)%nat && (px <? x + w)%nat && (y <=? py)%nat && (py <? y + h)%nat.

Definition onCanvas (c : Canvas) (px py : nat) : bool :=
  (px <? canvas_width c)%nat && (py <? canvas_height c)%nat.

(** Setting a dimension clears the bitmap and resets the drawing state. *)
Definition resetTo (w h : nat) : Canvas :=
  {| canvas_width := w; canvas_height := h;
     bitmap := fun _ _ => transparentBlack;
     globalCompositeOperation := source_over;
     fillStyle := FillColor (rgba 0 0 0 1) |}.

Definition setWidth (w : nat) (c : Canvas) : Canvas :=
  resetTo w (canvas_height c).

Definition setHeight (h : nat) (c : Canvas) : Canvas :=
  resetTo (canvas_width c) h.

Definition withBitmap (b : nat -> nat -> Pixel) (c : Canvas) : Canvas :=
  {| canvas_width := canvas_width c; canvas_height := canvas_height c;
     bitmap := b;
     globalCompositeOperation := globalCompositeOperation c;
     fillStyle := fillStyle c |}.

Definition setGlobalCompositeOperation (op : CompositeOp) (c : Canvas)
  : Canvas :=
  {| canvas_width := canvas_width c; canvas_height := canvas_height c;
     bitmap := bitmap c;
     globalCompositeOperation := op;
     fillStyle := fillStyle c |}.

Definition setFillStyle (style : FillStyle) (c : Canvas) : Canvas :=
  {| canvas_width := canvas_width c; canvas_height := canvas_height c;
     bitmap := bitmap c;
     globalCompositeOperation := globalCompositeOperation c;
     fillStyle := style |}.

Definition clearRect (x y w h : nat) (c : Canvas) : Canvas :=
  withBitmap
    (fun px py =>
       if inRect x y w h px py && onCanvas c px py then transparentBlack
       else bitmap c px py) c.

(** An image of zero width or height is not drawn (and nothing is thrown);
    otherwise each image pixel is composited at its place. *)
Definition drawImage (img : Image) (dx dy : nat) (c : Canvas) : Canvas :=
  withBitmap
    (fun px py =>
       if inRect dx dy (width img) (height img) px py && onCanvas c px py
       then blend (globalCompositeOperation c)
                  (colorOfPixel (pixels img (px - dx) (py - dy)))
                  (bitmap c px py)
       else bitmap c px py) c.

(** Each pixel of the rectangle is composited with the fill style sampled
    at the pixel's centre. *)
Definition fillRect (x y w h : nat) (c : Canvas) : Canvas :=
  withBitmap
    (fun px py =>
       if inRect x y w h px py && onCanvas c px py
       then blend (globalCompositeOperation c)
                  (paintAt (fillStyle c) (INR px + / 2) (INR py + / 2))
                  (bitmap c px py)
       else bitmap c px py) c.

End Canvas2D.

(** ** components/CanvasWorkspace: the rendering effect *)

Module CanvasWorkspace.
Import Canvas2D.

(** Step 3, "Prepare Gradient Mask": the gradient object for a canvas of
    the given size. *)
Definition prepareGradient (settings : GradientSettings) (canvas : Canvas)
  : Result CanvasGradient :=
  match type settings with
  | linear =>
      let rad := (angle settings - 90) * (PI / 180) in
      let w := INR (canvas_width canvas) in
      let h := INR (canvas_height canvas) in
      let cx := w / 2 in
      let cy := h / 2 in
      let diagonal := sqrt (w * w + h * h) in
      let x1 := cx + cos rad * (diagonal / 2) in
      let y1 := cy + sin rad * (diagonal / 2) in
      let x0 := cx - cos rad * (diagonal / 2) in
      let y0 := cy - sin rad * (diagonal / 2) in
      Ok (createLinearGradient x0 y0 x1 y1)
  | radial =>
      let cx := INR (canvas_width canvas) / 2 in
      let cy := INR (canvas_height canvas) / 2 in
      let r := Rmax (INR (canvas_width canvas))
                    (INR (canvas_height canvas)) / 2 in
      createRadialGradient cx cy 0 cx cy r
  end.

Definition safeStart (settings : GradientSettings) : R :=
  Rmax 0 (Rmin 1 (startPoint settings / 100)).

Definition safeEnd (settings : GradientSettings) : R :=
  Rmax 0 (Rmin 1 (endPoint settings / 100)).

(** Step 4, "Apply User Stops". *)
Definition applyUserStops (settings : GradientSettings)
           (gradient : CanvasGradient) : Result CanvasGradient :=
  let safeStart := safeStart settings in
  let safeEnd := safeEnd settings in
  if invert settings then
    g <- addColorStop 0 (rgba 0 0 0 0) gradient ;;
    g <- addColorStop (Rmin safeStart safeEnd) (rgba 0 0 0 0) g ;;
    g <- addColorStop (Rmax safeStart safeEnd) (rgba 0 0 0 1) g ;;
    addColorStop 1 (rgba 0 0 0 1) g
  else
    g <- addColorStop 0 (rgba 0 0 0 1) gradient ;;
    g <- addColorStop (Rmin safeStart safeEnd) (rgba 0 0 0 1) g ;;
    g <- addColorStop (Rmax safeStart safeEnd) (rgba 0 0 0 0) g ;;
    addColorStop 1 (rgba 0 0 0 0) g.

(** The body of the rendering effect, run on a canvas that is mounted and
    has a 2D context.  [image = None] is the early return of the effect,
    which leaves the canvas as it was. *)
Definition composite (image : option Image) (settings : GradientSettings)
           (canvas : Canvas) : Result Canvas :=
  match image with
  | None => Ok canvas
  | Some image =>
      let canvas := setWidth (width image) canvas in
      let canvas := setHeight (height image) canvas in
      let canvas :=
        clearRect 0 0 (canvas_width canvas) (canvas_height canvas) canvas in
      let canvas := drawImage image 0 0 canvas in
      let canvas := setGlobalCompositeOperation destination_in canvas in
      gradient <- prepareGradient settings canvas ;;
      gradient <- applyUserStops settings gradient ;;
      let canvas := setFillStyle (FillGradient gradient) canvas in
      let canvas :=
        fillRect 0 0 (canvas_width canvas) (canvas_height canvas) canvas in
      Ok (setGlobalCompositeOperation source_over canvas)
  end.

End CanvasWorkspace.

(** ** The rendering effect on numbers that need not be finite

    A JavaScript number is a finite value, NaN or an infinity.  The embedding
    above takes the settings as finite; here the numeric part of the effect
    is embedded again on all numbers, with the arithmetic of IEEE 754 on NaN
    and the infinities (finite results idealised as reals, the sign of zero
    ignored) and the conversion of the Canvas interface, which throws
    TypeError for an argument that is not finite. *)

Module JS.
Import Canvas2D.

Inductive Number : Type :=
| Finite (r : R)
| NaN
| PosInfinity
| NegInfinity.

Definition isFinite (v : Number) : bool :=
  match v with
  | Finite _ => true
  | _ => false
  end.

Definition isNaN (v : Number) : bool :=
  match v with
  | NaN => true
  | _ => false
  end.

Definition neg (v : Number) : Number :=
  match v with
  | Finite r => Finite (- r)
  | NaN => NaN
  | PosInfinity => NegInfinity
  | NegInfinity => PosInfinity
  end.

Definition add (a b : Number) : Number :=
  match a, b with
  | NaN, _ | _, NaN => NaN
  | Finite x, Finite y => Finite (x + y)
  | PosInfinity, NegInfinity | NegInfinity, PosInfinity => NaN
  | PosInfinity, _ | _, PosInfinity => PosInfinity
  | NegInfinity, _ | _, NegInfinity => NegInfinity
  end.

Definition sub (a b : Number) : Number := add a (neg b).

(** An infinity times a finite factor. *)
Definition signed (factor : R) (inf : Number) : Number :=
  if Rlt_dec 0 factor then inf
  else if Rlt_dec factor 0 then neg inf
  else NaN.

Definition mul (a b : Number) : Number :=
  match a, b with
  | NaN, _ | _, NaN => NaN
  | Finite x, Finite y => Finite (x * y)
  | Finite x, inf => signed x inf
  | inf, Finite y => signed y inf
  | PosInfinity, PosInfinity | NegInfinity, NegInfinity => PosInfinity
  | PosInfinity, NegInfinity | NegInfinity, PosInfinity => NegInfinity
  end.

Definition div (a b : Number) : Number :=
  match a, b with
  | NaN, _ | _, NaN => NaN
  | Finite x, Finite y =>
      if Req_dec_T y 0 then signed x PosInfinity else Finite (x / y)
  | Finite _, _ => Finite 0
  | inf, Finite y => if Rlt_dec y 0 then neg inf else inf
  | _, _ => NaN
  end.

Definition Math_cos (v : Number) : Number :=
  match v with
  | Finite r => Finite (cos r)
  | _ => NaN
  end.

Definition Math_sin (v : Number) : Number :=
  match v with
  | Finite r => Finite (sin r)
  | _ => NaN
  end.

Definition Math_min (a b : Number) : Number :=
  match a, b with
  | NaN, _ | _, NaN => NaN
  | Finite x, Finite y => Finite (Rmin x y)
  | NegInfinity, _ | _, NegInfinity => NegInfinity
  | PosInfinity, other | other, PosInfinity => other
  end.

Definition Math_max (a b : Number) : Number :=
  match a, b with
  | NaN, _ | _, NaN => NaN
  | Finite x, Finite y => Finite (Rmax x y)
  | PosInfinity, _ | _, PosInfinity => PosInfinity
  | NegInfinity, other | other, NegInfinity => other
  end.

(** The conversion of an argument declared [double]. *)
Definition toDouble (v : Number) : Result R :=
  match v with
  | Finite r => Ok r
  | _ => Throw TypeError
  end.

Definition createLinearGradient (x0 y0 x1 y1 : Number)
  : Result CanvasGradient :=
  x0 <- toDouble x0 ;;
  y0 <- toDouble y0 ;;
  x1 <- toDouble x1 ;;
  y1 <- toDouble y1 ;;
  Ok (Canvas2D.createLinearGradient x0 y0 x1 y1).

Definition addColorStop (offset : Number) (color : Color)
           (g : CanvasGradient) : Result CanvasGradient :=
  offset <- toDouble offset ;;
  Canvas2D.addColorStop offset color g.

(** types.ts, the three numbers not assumed finite. *)
Record Settings : Type := {
  angle : Number;
  startPoint : Number;
  endPoint : Number;
  invert : bool;
  type : GradientType
}.

Definition ofFinite (settings : GradientSettings) : Settings :=
  match settings with
  | Build_GradientSettings a s e i t =>
      {| angle := Finite a; startPoint := Finite s; endPoint := Finite e;
         invert := i; type := t |}
  end.

Definition prepareGradient (settings : Settings) (canvas : Canvas)
  : Result CanvasGradient :=
  match type settings with
  | linear =>
      let rad := mul (sub (angle settings) (Finite 90)) (Finite (PI / 180)) in
      let w := INR (canvas_width canvas) in
      let h := INR (canvas_height canvas) in
      let cx := w / 2 in
      let cy := h / 2 in
      let diagonal := sqrt (w * w + h * h) in
      let x1 := add (Finite cx) (mul (Math_cos rad) (Finite (diagonal / 2))) in
      let y1 := add (Finite cy) (mul (Math_sin rad) (Finite (diagonal / 2))) in
      let x0 := sub (Finite cx) (mul (Math_cos rad) (Finite (diagonal / 2))) in
      let y0 := sub (Finite cy) (mul (Math_sin rad) (Finite (diagonal / 2))) in
      createLinearGradient x0 y0 x1 y1
  | radial =>
      let cx := INR (canvas_width canvas) / 2 in
      let cy := INR (canvas_height canvas) / 2 in
      let r := Rmax (INR (canvas_width canvas))
                    (INR (canvas_height canvas)) / 2 in
      createRadialGradient cx cy 0 cx cy r
  end.

Definition safeStart (settings : Settings) : Number :=
  Math_max (Finite 0) (Math_min (Finite 1)
                                (div (startPoint settings) (Finite 100))).

Definition safeEnd (settings : Settings) : Number :=
  Math_max (Finite 0) (Math_min (Finite 1)
                                (div (endPoint settings) (Finite 100))).

Definition applyUserStops (settings : Settings) (gradient : CanvasGradient)
  : Result CanvasGradient :=
  let safeStart := safeStart settings in
  let safeEnd := safeEnd settings in
  if invert settings then
    g <- addColorStop (Finite 0) (rgba 0 0 0 0) gradient ;;
    g <- addColorStop (Math_min safeStart safeEnd) (rgba 0 0 0 0) g ;;
    g <- addColorStop (Math_max safeStart safeEnd) (rgba 0 0 0 1) g ;;
    addColorStop (Finite 1) (rgba 0 0 0 1) g
  else
    g <- addColorStop (Finite 0) (rgba 0 0 0 1) gradient ;;
    g <- addColorStop (Math_min safeStart safeEnd) (rgba 0 0 0 1) g ;;
    g <- addColorStop (Math_max safeStart safeEnd) (rgba 0 0 0 0) g ;;
    addColorStop (Finite 1) (rgba 0 0 0 0) g.

Definition composite (image : option Image) (settings : Settings)
           (canvas : Canvas) : Result Canvas :=
  match image with
  | None => Ok canvas
  | Some image =>
      let canvas := setWidth (width image) canvas in
      let canvas := setHeight (height image) canvas in
      let canvas :=
        clearRect 0 0 (canvas_width canvas) (canvas_height canvas) canvas in
      let canvas := drawImage image 0 0 canvas in
      let canvas := setGlobalCompositeOperation destination_in canvas in
      gradient <- prepareGradient settings canvas ;;
      gradient <- applyUserStops settings gradient ;;
      let canvas := setFillStyle (FillGradient gradient) canvas in
      let canvas :=
        fillRect 0 0 (canvas_width canvas) (canvas_height canvas) canvas in
      Ok (setGlobalCompositeOperation source_over canvas)
  end.

End JS.

(** ** App.tsx: the name of the exported file *)

Module App.

Open Scope string_scope.

(** [fileName.split('.')]: the pieces between the dots; never empty. *)
Fixpoint split (s : string) : list string :=
  match s with
  | EmptyString => [EmptyString]
  | String c s' =>
      if Ascii.eqb c "."%char then EmptyString :: split s'
      else match split s' with
           | [] => [String c EmptyString]
           | piece :: pieces => String c piece :: pieces
           end
  end.

(** [nameParts.pop()], the popped element dropped. *)
Definition pop (l : list string) : list string := removelast l.

(** [nameParts.join('.')]. *)
Definition join (sep : string) (l : list string) : string :=
  String.concat sep l.

(** The [download] attribute computed by [handleDownload]. *)
Definition downloadName (fileName : string) : string :=
  let nameParts := split fileName in
  let nameParts :=
    if (1 <? List.length nameParts)%nat then pop nameParts else nameParts in
  let base := join "." nameParts in
  base ++ "-fade.png".

(** No dot occurs in the string. *)
Fixpoint noDot (s : string) : bool :=
  match s with
  | EmptyString => true
  | String c s' => negb (Ascii.eqb c "."%char) && noDot s'
  end.

End App.

(** ** Vocabulary of the statements *)

Import Canvas2D CanvasWorkspace.

(** The mask of a [w] by [h] canvas: steps 3 and 4 of the effect. *)
Definition maskGradient (settings : GradientSettings) (w h : nat)
  : Result CanvasGradient :=
  gradient <- prepareGradient settings (resetTo w h) ;;
  applyUserStops settings gradient.

(** The axis parameter of pixel [(x, y)]: the offset of its centre. *)
Definition axisParameter (settings : GradientSettings) (w h x y : nat)
  : option R :=
  match maskGradient settings w h with
  | Ok g => offsetAt (geometry g) (INR x + / 2) (INR y + / 2)
  | Throw _ => None
  end.

(** The alpha of the mask at offset [t]. *)
Definition alphaFactor (settings : GradientSettings) (w h : nat) (t : R)
  : option R :=
  match maskGradient settings w h with
  | Ok g => option_map ca (colorAt (stops g) t)
  | Throw _ => None
  end.

(** The pixel of the result of the effect, as read back from the canvas. *)
Definition outputPixel (image : Image) (settings : GradientSettings)
           (canvas : Canvas) (x y : nat) : option Pixel :=
  match composite (Some image) settings canvas with
  | Ok out => Some (unpremultiply (bitmap out x y))
  | Throw _ => None
  end.

(** An image pixel as stored once drawn on the cleared canvas. *)
Definition drawnPixel (p : Pixel) : Pixel :=
  blend source_over (colorOfPixel p) transparentBlack.

(** An image pixel drawn, masked with a paint of alpha [f], and read back. *)
Definition maskedPixel (f : R) (p : Pixel) : Pixel :=
  unpremultiply (blend destination_in (rgba 0 0 0 f) (drawnPixel p)).

(** The normalized fade bounds. *)
Definition lo (settings : GradientSettings) : R :=
  Rmin (safeStart settings) (safeEnd settings).

Definition hi (settings : GradientSettings) : R :=
  Rmax (safeStart settings) (safeEnd settings).

(** The arguments of the four [addColorStop] calls, in call order. *)
Definition stopCalls (settings : GradientSettings) : list (R * Color) :=
  if invert settings then
    [(0, rgba 0 0 0 0); (lo settings, rgba 0 0 0 0);
     (hi settings, rgba 0 0 0 1); (1, rgba 0 0 0 1)]
  else
    [(0, rgba 0 0 0 1); (lo settings, rgba 0 0 0 1);
     (hi settings, rgba 0 0 0 0); (1, rgba 0 0 0 0)].

Definition addColorStops (calls : list (R * Color)) (g : CanvasGradient)
  : Result CanvasGradient :=
  fold_left (fun acc call => g' <- acc ;; addColorStop (fst call) (snd call) g')
            calls (Ok g).

Definition withInvert (b : bool) (settings : GradientSettings)
  : GradientSettings :=
  {| angle := angle settings; startPoint := startPoint settings;
     endPoint := endPoint settings; invert := b; type := type settings |}.

Definition withFade (a b : R) (settings : GradientSettings)
  : GradientSettings :=
  {| angle := angle settings; startPoint := a; endPoint := b;
     invert := invert settings; type := type settings |}.

(** The geometry handed to the gradient constructors. *)
Definition linearAxis (angleDegrees : R) (w h : nat) : GradientGeometry :=
  let theta := (angleDegrees - 90) * (PI / 180) in
  let diagonal := sqrt (INR w * INR w + INR h * INR h) in
  LinearGradient (INR w / 2 - cos theta * (diagonal / 2))
                 (INR h / 2 - sin theta * (diagonal / 2))
                 (INR w / 2 + cos theta * (diagonal / 2))
                 (INR h / 2 + sin theta * (diagonal / 2)).

Definition radialAxis (w h : nat) : GradientGeometry :=
  RadialGradient (INR w / 2) (INR h / 2) 0
                 (INR w / 2) (INR h / 2) (Rmax (INR w) (INR h) / 2).

Definition axisGeometry (settings : GradientSettings) (w h : nat)
  : GradientGeometry :=
  match type settings with
  | linear => linearAxis (angle settings) w h
  | radial => radialAxis w h
  end.

(** The plateau values of the mask: before the fade zone and after it. *)
Definition plateauBefore (settings : GradientSettings) : R :=
  if invert settings then 0 else 1.

Definition plateauAfter (settings : GradientSettings) : R :=
  if invert settings then 1 else 0.

(** The four-stop profile, written from its description: the first plateau up
    to [lo], the second from [hi] on, a straight line in between. *)
Definition fourStopProfile (a0 a1 lo hi t : R) : R :=
  if Rle_dec t lo then a0
  else if Rle_dec hi t then a1
  else a0 + (a1 - a0) * ((t - lo) / (hi - lo)).

(** The alpha factor of the settings at offset [t]. *)
Definition profileOf (settings : GradientSettings) (t : R) : R :=
  fourStopProfile (plateauBefore settings) (plateauAfter settings)
                  (lo settings) (hi settings) t.

Definition sampleImage (p : Pixel) (w h : nat) : Image :=
  {| width := w; height := h; pixels := fun _ _ => p |}.

Definition opaqueGrey : Pixel :=
  {| red := 10; green := 20; blue := 30; alpha := 255 |}.

Definition defaultSettings : GradientSettings :=
  {| angle := 180; startPoint := 20; endPoint := 80; invert := false;
     type := linear |}.

Definition radialSettings : GradientSettings :=
  {| angle := 0; startPoint := 20; endPoint := 80; invert := false;
     type := radial |}.

(** Both fade sliders at the 50% mark. *)
Definition stepSettings : GradientSettings :=
  {| angle := 180; startPoint := 50; endPoint := 50; invert := false;
     type := linear |}.

(** The fade across the whole axis, pointing down. *)
Definition downwardSettings : GradientSettings :=
  {| angle := 180; startPoint := 0; endPoint := 100; invert := false;
     type := linear |}.

(** The factor of row [y] of a [w] by [h] bitmap under [downwardSettings]. *)
Definition rowFactor (w h y : nat) : R :=
  / 2 - (INR y + / 2 - INR h / 2) / sqrt (INR w * INR w + INR h * INR h).

Definition blankCanvas : Canvas := resetTo 300 150.

Definition withAngle (a : R) (settings : GradientSettings)
  : GradientSettings :=
  {| angle := a; startPoint := startPoint settings;
     endPoint := endPoint settings; invert := invert settings;
     type := type settings |}.

(** The square of the distance from the centre of pixel [(x, y)] to the
    centre of a [w] by [h] bitmap. *)
Definition centreDistance2 (w h x y : nat) : R :=
  (INR x + / 2 - INR w / 2) * (INR x + / 2 - INR w / 2)
  + (INR y + / 2 - INR h / 2) * (INR y + / 2 - INR h / 2).

(** The settings seen from the other end of the axis: the angle turned by
    180 degrees, the fade points counted from the other end, invert flipped. *)
Definition mirrored (settings : GradientSettings) : GradientSettings :=
  {| angle := angle settings + 180;
     startPoint := 100 - endPoint settings;
     endPoint := 100 - startPoint settings;
     invert := negb (invert settings);
     type := type settings |}.

(** ** App.tsx: the state of the application and its handlers *)

Module AppHandlers.

(** The three [useState] cells of [App]. *)
Record State : Type := {
  image : option Image;
  fileName : string;
  settings : GradientSettings
}.

Definition initial : State :=
  {| image := None;
     fileName := "image.png";
     settings := {| angle := 180; startPoint := 20; endPoint := 80;
                    invert := false; type := linear |} |}.

(** What the user interface can do to the state: a file finishes loading
    ([img.onload] in [handleFileChange]), the loaded image is dismissed, one
    of the three sliders or the checkbox changes, the reset button is
    pressed. *)
Inductive Action : Type :=
| FileLoaded (img : Image) (name : string)
| ImageRemoved
| AngleSlider (v : R)
| StartSlider (v : R)
| EndSlider (v : R)
| InvertToggled (checked : bool)
| ResetClicked.

Definition resetSettings : GradientSettings :=
  {| angle := 180; startPoint := 20; endPoint := 80; invert := false;
     type := linear |}.

Definition handle (st : State) (a : Action) : State :=
  match a with
  | FileLoaded img name =>
      {| image := Some img; fileName := name; settings := settings st |}
  | ImageRemoved =>
      {| image := None; fileName := fileName st; settings := settings st |}
  | AngleSlider v =>
      {| image := image st; fileName := fileName st;
         settings := {| angle := v;
                        startPoint := startPoint (settings st);
                        endPoint := endPoint (settings st);
                        invert := invert (settings st);
                        type := type (settings st) |} |}
  | StartSlider v =>
      {| image := image st; fileName := fileName st;
         settings := {| angle := angle (settings st);
                        startPoint := v;
                        endPoint := endPoint (settings st);
                        invert := invert (settings st);
                        type := type (settings st) |} |}
  | EndSlider v =>
      {| image := image st; fileName := fileName st;
         settings := {| angle := angle (settings st);
                        startPoint := startPoint (settings st);
                        endPoint := v;
                        invert := invert (settings st);
                        type := type (settings st) |} |}
  | InvertToggled checked =>
      {| image := image st; fileName := fileName st;
         settings := {| angle := angle (settings st);
                        startPoint := startPoint (settings st);
                        endPoint := endPoint (settings st);
                        invert := checked;
                        type := type (settings st) |} |}
  | ResetClicked =>
      {| image := image st; fileName := fileName st;
         settings := resetSettings |}
  end.

Definition run (actions : list Action) : State :=
  fold_left handle actions initial.

(** A range input reports a value between its [min] and its [max]; the
    sliders of [App] are given 0..360 for the angle and 0..100 for the two
    fade points. *)
Definition fromSliders (a : Action) : Prop :=
  match a with
  | AngleSlider v => 0 <= v <= 360
  | StartSlider v => 0 <= v <= 100
  | EndSlider v => 0 <= v <= 100
  | _ => True
  end.

(** The rendering effect on the state: it runs with the current image and
    settings. *)
Definition render (st : State) (canvas : Canvas) : Result Canvas :=
  composite (image st) (settings st) canvas.

End AppHandlers.

(** The values that the sliders can give to the settings. *)
Definition sliderRanges (s : GradientSettings) : Prop :=
  0 <= angle s <= 360 /\ 0 <= startPoint s <= 100 /\ 0 <= endPoint s <= 100.

(** ** Facts about the platform model *)

Ltac rdec :=
  repeat match goal with
         | |- context [Rle_dec ?a ?b] => destruct (Rle_dec a b)
         | |- context [Rlt_dec ?a ?b] => destruct (Rlt_dec a b)
         | |- context [Req_dec_T ?a ?b] => destruct (Req_dec_T a b)
         end;
  try lra.

Lemma to_u8_range (x : R) : (0 <= to_u8 x <= 255)%Z.
Proof. unfold to_u8. lia. Qed.

Lemma to_u8_IZR (z : Z) : (0 <= z <= 255)%Z -> to_u8 (IZR z) = z.
Proof.
  intros Hz. unfold to_u8.
  rewrite (Zfloor_eq z (IZR z + / 2)) by lra.
  lia.
Qed.

Lemma to_u8_zero : to_u8 0 = 0%Z.
Proof. apply (to_u8_IZR 0). lia. Qed.

Lemma to_u8_eq (n : Z) (x : R) :
  (0 <= n <= 255)%Z -> IZR n - / 2 <= x < IZR n + / 2 -> to_u8 x = n.
Proof.
  intros Hn Hx. unfold to_u8.
  rewrite (Zfloor_eq n (x + / 2)) by lra.
  lia.
Qed.

Lemma alpha_unpremultiply (p : Pixel) : alpha (unpremultiply p) = alpha p.
Proof.
  unfold unpremultiply. destruct (Z.eqb (alpha p) 0) eqn:Ha.
  - apply Z.eqb_eq in Ha. now rewrite Ha.
  - reflexivity.
Qed.

Lemma wf_unpremultiply (p : Pixel) :
  (0 <= alpha p <= 255)%Z -> wfPixel (unpremultiply p).
Proof.
  intros Ha. unfold unpremultiply, wfPixel.
  destruct (Z.eqb (alpha p) 0).
  - simpl. lia.
  - cbn [red green blue alpha].
    pose proof (to_u8_range (IZR (red p) * 255 / IZR (alpha p))).
    pose proof (to_u8_range (IZR (green p) * 255 / IZR (alpha p))).
    pose proof (to_u8_range (IZR (blue p) * 255 / IZR (alpha p))).
    lia.
Qed.

(** Drawing a well-formed image pixel on the cleared canvas stores its alpha
    unchanged. *)
Lemma alpha_drawnPixel (p : Pixel) :
  wfPixel p -> alpha (drawnPixel p) = alpha p.
Proof.
  intros (_ & _ & _ & Ha). unfold drawnPixel, blend, colorOfPixel.
  cbn [ca rgba alpha transparentBlack].
  replace (255 * (IZR (alpha p) / 255) + 0 * (1 - IZR (alpha p) / 255))
    with (IZR (alpha p)) by field.
  now apply to_u8_IZR.
Qed.

(** The alpha read back is the source alpha times the factor, rounded. *)
Lemma alpha_maskedPixel (f : R) (p : Pixel) :
  wfPixel p -> alpha (maskedPixel f p) = to_u8 (IZR (alpha p) * f).
Proof.
  intros Hp. unfold maskedPixel. rewrite alpha_unpremultiply.
  unfold blend. cbn [alpha ca rgba]. now rewrite alpha_drawnPixel.
Qed.

Lemma wf_maskedPixel (f : R) (p : Pixel) : wfPixel (maskedPixel f p).
Proof.
  unfold maskedPixel. apply wf_unpremultiply.
  unfold blend. cbn [alpha]. apply to_u8_range.
Qed.

(** A pixel masked down to alpha 0 reads back as transparent black. *)
Lemma maskedPixel_cleared (f : R) (p : Pixel) :
  wfPixel p -> to_u8 (IZR (alpha p) * f) = 0%Z ->
  maskedPixel f p = transparentBlack.
Proof.
  intros Hp Hz. unfold maskedPixel, unpremultiply.
  unfold blend at 1. cbn [alpha ca rgba].
  rewrite alpha_drawnPixel by assumption. rewrite Hz. reflexivity.
Qed.

(** A pixel that reads back with alpha 255 reads back exactly as it was. *)
Lemma maskedPixel_opaque (f : R) (p : Pixel) :
  wfPixel p -> 0 <= f <= 1 -> to_u8 (IZR (alpha p) * f) = 255%Z ->
  maskedPixel f p = p.
Proof.
  intros Hp Hf H255. pose proof Hp as (Hr & Hg & Hb & Ha).
  assert (Hfloor : 255 <= IZR (alpha p) * f + / 2).
  { unfold to_u8 in H255.
    pose proof (Zfloor_bound (IZR (alpha p) * f + / 2)) as Hn.
    assert (Hge : (255 <= Zfloor (IZR (alpha p) * f + / 2))%Z) by lia.
    apply IZR_le in Hge. lra. }
  assert (Ha0 : 0 <= IZR (alpha p)) by (apply IZR_le; lia).
  assert (Ha255 : IZR (alpha p) <= 255) by (apply IZR_le; lia).
  assert (Hopaque : alpha p = 255%Z).
  { assert (Hgt : (254 < alpha p)%Z) by (apply lt_IZR; nra). lia. }
  assert (Hf' : 255 * f >= 254 + / 2) by (rewrite Hopaque in Hfloor; lra).
  assert (Hchan : forall c : Z,
             (0 <= c <= 255)%Z ->
             to_u8 (IZR (to_u8 (IZR c * f)) * 255 / IZR 255) = c).
  { intros c Hc.
    assert (0 <= IZR c) by (apply IZR_le; lia).
    assert (IZR c <= 255) by (apply IZR_le; lia).
    rewrite (to_u8_eq c (IZR c * f)) by (try assumption; nra).
    apply to_u8_eq; [assumption |]. lra. }
  assert (Hdrawn : forall c : Z,
             (0 <= c <= 255)%Z ->
             to_u8 (IZR (alpha p) / 255 * IZR c
                    + 0 * (1 - IZR (alpha p) / 255)) = c).
  { intros c Hc. rewrite Hopaque.
    replace (255 / 255 * IZR c + 0 * (1 - 255 / 255)) with (IZR c) by field.
    now apply to_u8_IZR. }
  assert (Hd : drawnPixel p = p).
  { unfold drawnPixel, blend, colorOfPixel.
    cbn [red green blue alpha ca cr cg cb rgba transparentBlack].
    rewrite !Hdrawn by assumption.
    replace (255 * (IZR (alpha p) / 255) + 0 * (1 - IZR (alpha p) / 255))
      with (IZR (alpha p)) by field.
    rewrite to_u8_IZR by assumption. now destruct p. }
  unfold maskedPixel. rewrite Hd. unfold blend, unpremultiply.
  cbn [red green blue alpha ca rgba]. rewrite H255. cbn [Z.eqb].
  rewrite !Hchan by assumption.
  destruct p as [r g b a]. cbn [alpha] in Hopaque. now subst a.
Qed.

Lemma ratio_defined (num den : R) :
  den <> 0 -> ratio num den = Some (num / den).
Proof. intros H. unfold ratio. destruct (Req_dec_T den 0); tauto. Qed.

Lemma placeStop_last (o : R) (c : Color) (l : list (R * Color)) :
  Forall (fun s => fst s <= o) l -> placeStop o c l = l ++ [(o, c)].
Proof.
  induction 1 as [| s l Hs _ IH]; simpl.
  - reflexivity.
  - destruct (Rlt_dec o (fst s)); [lra |]. now rewrite IH.
Qed.

Lemma addColorStop_ok (o : R) (c : Color) (g : CanvasGradient) :
  0 <= o <= 1 ->
  addColorStop o c g =
  Ok {| geometry := geometry g; stops := placeStop o c (stops g) |}.
Proof. intros H. unfold addColorStop. rdec. reflexivity. Qed.

(** Interpolation never divides by zero: it is only asked for offsets that
    lie strictly beyond the previous stop. *)
Lemma colorAfter_defined (rest : list (R * Color)) :
  forall prev t, fst prev < t -> exists c, colorAfter prev rest t = Some c.
Proof.
  induction rest as [| s rest IH]; intros prev t Ht; simpl.
  - eauto.
  - destruct (Rle_dec t (fst s)).
    + unfold interpolate. rewrite ratio_defined by lra. simpl. eauto.
    + apply IH. lra.
Qed.

Lemma colorAt_defined (l : list (R * Color)) (t : R) :
  exists c, colorAt l t = Some c.
Proof.
  destruct l as [| s rest]; simpl; [eauto |].
  destruct (Rle_dec t (fst s)); [eauto |].
  apply colorAfter_defined. lra.
Qed.

(** The alpha of a gradient with the four stops of the component. *)
Lemma colorAt_four_stops (c0 c1 : Color) (l h t : R) :
  0 <= l -> l <= h -> h <= 1 ->
  option_map ca (colorAt [(0, c0); (l, c0); (h, c1); (1, c1)] t) =
  Some (fourStopProfile (ca c0) (ca c1) l h t).
Proof.
  intros H0 Hlh H1. unfold fourStopProfile, colorAt, colorAfter, interpolate.
  simpl fst. simpl snd.
  destruct (Rle_dec t 0) as [Ht0 | Ht0].
  { simpl. destruct (Rle_dec t l); [reflexivity | lra]. }
  destruct (Rle_dec t l) as [Htl | Htl].
  { rewrite ratio_defined by lra. simpl. unfold mix. f_equal. ring. }
  destruct (Rle_dec t h) as [Hth | Hth].
  { rewrite ratio_defined by lra. simpl. unfold mix.
    destruct (Rle_dec h t) as [Hht | Hht]; [| reflexivity].
    assert (t = h) by lra. subst t. f_equal. field. lra. }
  destruct (Rle_dec h t); [| lra].
  destruct (Rle_dec t 1).
  { rewrite ratio_defined by lra. simpl. unfold mix. f_equal. ring. }
  reflexivity.
Qed.

(** ** Facts about the rendering effect *)

Lemma safeStart_range (settings : GradientSettings) :
  0 <= safeStart settings <= 1.
Proof.
  unfold safeStart, Rmax, Rmin.
  destruct (Rle_dec 1 (startPoint settings / 100)); rdec.
Qed.

Lemma safeEnd_range (settings : GradientSettings) :
  0 <= safeEnd settings <= 1.
Proof.
  unfold safeEnd, Rmax, Rmin.
  destruct (Rle_dec 1 (endPoint settings / 100)); rdec.
Qed.

Lemma lo_hi_range (settings : GradientSettings) :
  0 <= lo settings /\ lo settings <= hi settings /\ hi settings <= 1.
Proof.
  pose proof (safeStart_range settings). pose proof (safeEnd_range settings).
  unfold lo, hi, Rmax, Rmin.
  destruct (Rle_dec (safeStart settings) (safeEnd settings)); lra.
Qed.

Lemma stopCalls_offsets (settings : GradientSettings) :
  map fst (stopCalls settings) = [0; lo settings; hi settings; 1].
Proof. unfold stopCalls. destruct (invert settings); reflexivity. Qed.

Lemma stopCalls_shape (settings : GradientSettings) :
  stopCalls settings =
  [(0, rgba 0 0 0 (plateauBefore settings));
   (lo settings, rgba 0 0 0 (plateauBefore settings));
   (hi settings, rgba 0 0 0 (plateauAfter settings));
   (1, rgba 0 0 0 (plateauAfter settings))].
Proof.
  unfold stopCalls, plateauBefore, plateauAfter.
  destruct (invert settings); reflexivity.
Qed.

Lemma applyUserStops_calls (settings : GradientSettings) (g : CanvasGradient) :
  applyUserStops settings g = addColorStops (stopCalls settings) g.
Proof.
  unfold applyUserStops, addColorStops, stopCalls.
  fold (lo settings). fold (hi settings).
  destruct (invert settings); simpl;
    repeat match goal with
           | |- context [addColorStop ?o ?c ?x] =>
               destruct (addColorStop o c x); simpl
           end; reflexivity.
Qed.

Lemma applyUserStops_placed (settings : GradientSettings) (g : CanvasGradient) :
  stops g = [] ->
  applyUserStops settings g =
  Ok {| geometry := geometry g; stops := stopCalls settings |}.
Proof.
  intros Hfresh. destruct (lo_hi_range settings) as (H0 & Hlh & H1).
  unfold applyUserStops, stopCalls.
  fold (lo settings). fold (hi settings).
  destruct (invert settings);
    repeat (rewrite addColorStop_ok by lra; cbn [bind geometry stops]);
    rewrite Hfresh;
    rewrite (placeStop_last _ _ []) by apply Forall_nil; cbn [app];
    rewrite (placeStop_last _ _ [_])
      by (repeat (apply Forall_cons; [cbn [fst]; lra |]); apply Forall_nil);
    cbn [app];
    rewrite (placeStop_last _ _ [_; _])
      by (repeat (apply Forall_cons; [cbn [fst]; lra |]); apply Forall_nil);
    cbn [app];
    rewrite (placeStop_last _ _ [_; _; _])
      by (repeat (apply Forall_cons; [cbn [fst]; lra |]); apply Forall_nil);
    cbn [app];
    reflexivity.
Qed.

Lemma applyUserStops_total (settings : GradientSettings) (g : CanvasGradient) :
  exists g', applyUserStops settings g = Ok g'.
Proof.
  destruct (lo_hi_range settings) as (H0 & Hlh & H1).
  unfold applyUserStops.
  fold (lo settings). fold (hi settings).
  destruct (invert settings);
    repeat (rewrite addColorStop_ok by lra; cbn [bind geometry stops]);
    eauto.
Qed.

Lemma radius_nonneg (w h : nat) : 0 <= Rmax (INR w) (INR h) / 2.
Proof.
  pose proof (pos_INR w). pose proof (Rmax_l (INR w) (INR h)). lra.
Qed.

Lemma prepareGradient_ok (settings : GradientSettings) (canvas : Canvas) :
  prepareGradient settings canvas =
  Ok {| geometry :=
          axisGeometry settings (canvas_width canvas) (canvas_height canvas);
        stops := [] |}.
Proof.
  unfold prepareGradient, axisGeometry. destruct (type settings).
  - reflexivity.
  - unfold createRadialGradient, radialAxis.
    pose proof (radius_nonneg (canvas_width canvas) (canvas_height canvas)).
    rdec. reflexivity.
Qed.

Lemma maskGradient_ok (settings : GradientSettings) (w h : nat) :
  maskGradient settings w h =
  Ok {| geometry := axisGeometry settings w h;
        stops := stopCalls settings |}.
Proof.
  unfold maskGradient. rewrite prepareGradient_ok. cbn [bind].
  now rewrite applyUserStops_placed.
Qed.

Lemma alphaFactor_profile (settings : GradientSettings) (w h : nat) (t : R) :
  alphaFactor settings w h t =
  Some (fourStopProfile (plateauBefore settings) (plateauAfter settings)
                        (lo settings) (hi settings) t).
Proof.
  destruct (lo_hi_range settings) as (H0 & Hlh & H1).
  unfold alphaFactor. rewrite maskGradient_ok. cbn [stops].
  rewrite stopCalls_shape.
  now rewrite colorAt_four_stops.
Qed.

Lemma axisParameter_geometry (settings : GradientSettings) (w h x y : nat) :
  axisParameter settings w h x y =
  offsetAt (axisGeometry settings w h) (INR x + / 2) (INR y + / 2).
Proof. unfold axisParameter. now rewrite maskGradient_ok. Qed.

Lemma inRect_origin (w h x y : nat) :
  (x < w)%nat -> (y < h)%nat -> inRect 0 0 w h x y = true.
Proof.
  intros Hx Hy. unfold inRect. cbn [Nat.add Nat.leb andb].
  apply Nat.ltb_lt in Hx. apply Nat.ltb_lt in Hy.
  now rewrite Hx, Hy.
Qed.

(** What the effect leaves on the canvas: the canvas takes the size of the
    image, and every pixel is the image pixel masked by the gradient. *)
Lemma composite_result (image : Image) (settings : GradientSettings)
      (canvas : Canvas) :
  exists out,
    composite (Some image) settings canvas = Ok out /\
    canvas_width out = width image /\
    canvas_height out = height image /\
    forall x y, (x < width image)%nat -> (y < height image)%nat ->
      bitmap out x y =
      blend destination_in
            (paintAt (FillGradient
                        {| geometry :=
                             axisGeometry settings (width image) (height image);
                           stops := stopCalls settings |})
                     (INR x + / 2) (INR y + / 2))
            (drawnPixel (pixels image x y)).
Proof.
  unfold composite. cbv zeta.
  rewrite prepareGradient_ok. cbn [bind].
  rewrite applyUserStops_placed by reflexivity. cbn [bind geometry].
  eexists. split; [reflexivity |].
  split; [reflexivity |]. split; [reflexivity |].
  intros x y Hx Hy.
  cbn [bitmap setGlobalCompositeOperation fillRect withBitmap setFillStyle
       canvas_width canvas_height drawImage clearRect setHeight setWidth
       resetTo globalCompositeOperation fillStyle].
  unfold onCanvas.
  cbn [bitmap setGlobalCompositeOperation fillRect withBitmap setFillStyle
       canvas_width canvas_height drawImage clearRect setHeight setWidth
       resetTo globalCompositeOperation fillStyle].
  rewrite (inRect_origin _ _ x y Hx Hy).
  apply Nat.ltb_lt in Hx. apply Nat.ltb_lt in Hy. rewrite Hx, Hy.
  cbn [andb]. rewrite !Nat.sub_0_r.
  reflexivity.
Qed.

(** ** Geometry of the two axes *)

Lemma diagonal_sqr (w h : nat) :
  let d := sqrt (INR w * INR w + INR h * INR h) in
  d * d = INR w * INR w + INR h * INR h.
Proof.
  cbv zeta. apply sqrt_sqrt.
  pose proof (pos_INR w). pose proof (pos_INR h). nra.
Qed.

Lemma diagonal_pos (w h : nat) :
  (0 < w)%nat -> 0 < sqrt (INR w * INR w + INR h * INR h).
Proof.
  intros Hw. apply sqrt_lt_R0.
  apply lt_0_INR in Hw. pose proof (pos_INR h). nra.
Qed.

Lemma diagonal_ge_height (w h : nat) :
  INR h <= sqrt (INR w * INR w + INR h * INR h).
Proof.
  pose proof (diagonal_sqr w h) as Hsq. cbv zeta in Hsq.
  pose proof (sqrt_pos (INR w * INR w + INR h * INR h)) as Hd.
  pose proof (pos_INR h). pose proof (pos_INR w).
  set (d := sqrt (INR w * INR w + INR h * INR h)) in *.
  destruct (Rle_dec (INR h) d); [assumption | nra].
Qed.

(** The offset of a point on the linear axis: one half at the centre of the
    bitmap, plus the signed distance along the direction over the diagonal. *)
Lemma linear_offset (a : R) (w h : nat) (px py : R) :
  (0 < w)%nat ->
  let theta := (a - 90) * (PI / 180) in
  let d := sqrt (INR w * INR w + INR h * INR h) in
  offsetAt (linearAxis a w h) px py =
  Some (/ 2 + ((px - INR w / 2) * cos theta + (py - INR h / 2) * sin theta) / d).
Proof.
  intros Hw theta d. unfold linearAxis. cbv zeta. fold theta. fold d.
  unfold offsetAt.
  assert (Hd : 0 < d) by (apply diagonal_pos; assumption).
  assert (Hcs : cos theta * cos theta + sin theta * sin theta = 1).
  { pose proof (sin2_cos2 theta) as H. unfold Rsqr in H. lra. }
  set (c := cos theta) in *. set (s := sin theta) in *.
  assert (Hden :
            (INR w / 2 + c * (d / 2) - (INR w / 2 - c * (d / 2))) *
            (INR w / 2 + c * (d / 2) - (INR w / 2 - c * (d / 2))) +
            (INR h / 2 + s * (d / 2) - (INR h / 2 - s * (d / 2))) *
            (INR h / 2 + s * (d / 2) - (INR h / 2 - s * (d / 2))) = d * d).
  { transitivity (d * d * (c * c + s * s)); [field | rewrite Hcs; ring]. }
  rewrite Hden.
  rewrite ratio_defined by nra.
  f_equal.
  transitivity
    ((d * ((px - INR w / 2) * c + (py - INR h / 2) * s)
      + d * d / 2 * (c * c + s * s)) / (d * d)).
  - f_equal. field.
  - rewrite Hcs. field. lra.
Qed.

Lemma radial_offset (w h : nat) (px py : R) :
  (0 < w)%nat ->
  offsetAt (radialAxis w h) px py =
  Some (sqrt ((px - INR w / 2) * (px - INR w / 2)
              + (py - INR h / 2) * (py - INR h / 2))
        / (Rmax (INR w) (INR h) / 2)).
Proof.
  intros Hw. unfold radialAxis, offsetAt.
  destruct (Req_dec_T (INR w / 2) (INR w / 2)); [| congruence].
  destruct (Req_dec_T (INR h / 2) (INR h / 2)); [| congruence].
  apply lt_0_INR in Hw. pose proof (Rmax_l (INR w) (INR h)).
  rewrite ratio_defined by lra.
  f_equal. f_equal; lra.
Qed.

(** On a bitmap with pixels the gradient is never degenerate: every pixel
    has an axis parameter, so no quotient has a zero divisor. *)
Lemma axisParameter_defined (settings : GradientSettings) (w h x y : nat) :
  (0 < w)%nat -> exists t, axisParameter settings w h x y = Some t.
Proof.
  intros Hw. rewrite axisParameter_geometry. unfold axisGeometry.
  destruct (type settings).
  - rewrite linear_offset by assumption. eauto.
  - rewrite radial_offset by assumption. eauto.
Qed.

Lemma quarter_turn : (180 - 90) * (PI / 180) = PI / 2.
Proof. lra. Qed.

(** With the angle at 180 degrees the axis points down the bitmap. *)
Lemma downward_offset (w h : nat) (px py : R) :
  (0 < w)%nat ->
  offsetAt (linearAxis 180 w h) px py =
  Some (/ 2 + (py - INR h / 2) / sqrt (INR w * INR w + INR h * INR h)).
Proof.
  intros Hw. rewrite linear_offset by assumption. cbv zeta.
  rewrite quarter_turn, cos_PI2, sin_PI2.
  f_equal. f_equal. f_equal. ring.
Qed.

(** The only pixel of a 1 by 1 bitmap sits at the middle of the linear axis,
    whatever the angle, and at the centre of the radial one. *)
Lemma single_pixel_linear (a : R) :
  offsetAt (linearAxis a 1 1) (INR 0 + / 2) (INR 0 + / 2) = Some (/ 2).
Proof.
  rewrite linear_offset by lia. cbv zeta. f_equal.
  replace (INR 0 + / 2 - INR 1 / 2) with 0 by (simpl; lra).
  unfold Rdiv. ring.
Qed.

Lemma single_pixel_radial :
  offsetAt (radialAxis 1 1) (INR 0 + / 2) (INR 0 + / 2) = Some 0.
Proof.
  rewrite radial_offset by lia. f_equal.
  replace (INR 0 + / 2 - INR 1 / 2) with 0 by (simpl; lra).
  replace (0 * 0 + 0 * 0) with 0 by ring.
  rewrite sqrt_0. unfold Rdiv. ring.
Qed.

(** ** The profile and the masked alpha *)

Lemma fourStopProfile_range (a0 a1 l h t : R) :
  0 <= a0 <= 1 -> 0 <= a1 <= 1 -> l <= h ->
  0 <= fourStopProfile a0 a1 l h t <= 1.
Proof.
  intros H0 H1 Hlh. unfold fourStopProfile.
  destruct (Rle_dec t l); [lra |].
  destruct (Rle_dec h t); [lra |].
  assert (Hd : 0 < h - l) by lra.
  assert (Hu : 0 <= (t - l) / (h - l) <= 1).
  { split.
    - apply Rmult_le_pos; [lra |]. left. now apply Rinv_0_lt_compat.
    - apply Rmult_le_reg_r with (h - l); [assumption |].
      unfold Rdiv. rewrite Rmult_assoc, Rinv_l by lra. lra. }
  set (u := (t - l) / (h - l)) in *. nra.
Qed.

Lemma fourStopProfile_swap (a0 a1 l h t : R) :
  fourStopProfile (1 - a0) (1 - a1) l h t = 1 - fourStopProfile a0 a1 l h t.
Proof.
  unfold fourStopProfile.
  destruct (Rle_dec t l); [reflexivity |].
  destruct (Rle_dec h t); [reflexivity |].
  ring.
Qed.

Lemma plateau_range (settings : GradientSettings) :
  0 <= plateauBefore settings <= 1 /\ 0 <= plateauAfter settings <= 1.
Proof.
  unfold plateauBefore, plateauAfter. destruct (invert settings); lra.
Qed.

Lemma profileOf_range (settings : GradientSettings) (t : R) :
  0 <= profileOf settings t <= 1.
Proof.
  destruct (plateau_range settings). destruct (lo_hi_range settings) as (_ & ? & _).
  now apply fourStopProfile_range.
Qed.

Lemma profileOf_invert (settings : GradientSettings) (t : R) :
  profileOf (withInvert true settings) t =
  1 - profileOf (withInvert false settings) t.
Proof.
  unfold profileOf, plateauBefore, plateauAfter, lo, hi, safeStart, safeEnd.
  cbn [withInvert invert startPoint endPoint].
  rewrite <- fourStopProfile_swap. f_equal; ring.
Qed.

(** The alpha of the mask at a pixel whose axis parameter is [t]. *)
Lemma mask_alpha (settings : GradientSettings) (w h x y : nat) (t : R) :
  axisParameter settings w h x y = Some t ->
  ca (paintAt (FillGradient {| geometry := axisGeometry settings w h;
                               stops := stopCalls settings |})
              (INR x + / 2) (INR y + / 2)) = profileOf settings t.
Proof.
  intros Ht. rewrite axisParameter_geometry in Ht.
  unfold paintAt, gradientColorAt. cbn [geometry stops]. rewrite Ht.
  pose proof (alphaFactor_profile settings w h t) as Hf.
  unfold alphaFactor in Hf. rewrite maskGradient_ok in Hf. cbn [stops] in Hf.
  destruct (colorAt (stopCalls settings) t); simpl in Hf; [| discriminate].
  now injection Hf.
Qed.

(** The pixel that the effect leaves at [(x, y)], as read back. *)
Lemma composite_pixel (image : Image) (settings : GradientSettings)
      (canvas : Canvas) (x y : nat) (t : R) :
  (x < width image)%nat -> (y < height image)%nat ->
  axisParameter settings (width image) (height image) x y = Some t ->
  outputPixel image settings canvas x y =
  Some (maskedPixel (profileOf settings t) (pixels image x y)).
Proof.
  intros Hx Hy Ht. unfold outputPixel.
  destruct (composite_result image settings canvas)
    as (out & Hout & _ & _ & Hpix).
  rewrite Hout, (Hpix x y Hx Hy).
  unfold maskedPixel, blend.
  now rewrite (mask_alpha settings _ _ x y t Ht).
Qed.

Lemma composite_pixel_alpha (image : Image) (settings : GradientSettings)
      (canvas : Canvas) (x y : nat) (t : R) :
  wfImage image ->
  (x < width image)%nat -> (y < height image)%nat ->
  axisParameter settings (width image) (height image) x y = Some t ->
  exists p,
    outputPixel image settings canvas x y = Some p /\
    alpha p = to_u8 (IZR (alpha (pixels image x y)) * profileOf settings t).
Proof.
  intros Hwf Hx Hy Ht. eexists.
  split; [now apply (composite_pixel _ _ _ x y t) |].
  apply alpha_maskedPixel. now apply Hwf.
Qed.

(** Rounding the two complementary shares of a byte. *)
Lemma to_u8_shares (a : Z) (u : R) :
  (0 <= a <= 255)%Z -> 0 <= u <= IZR a ->
  (to_u8 (IZR a - u) + to_u8 u = a \/ to_u8 (IZR a - u) + to_u8 u = a + 1)%Z.
Proof.
  intros Ha Hu. unfold to_u8.
  pose proof (Zfloor_bound (u + / 2)) as Hn.
  pose proof (Zfloor_bound (IZR a - u + / 2)) as Hm.
  set (n := Zfloor (u + / 2)) in *.
  set (m := Zfloor (IZR a - u + / 2)) in *.
  assert (Hn0 : (0 <= n)%Z) by (apply (Zfloor_lub 0); lra).
  assert (Hm0 : (0 <= m)%Z) by (apply (Zfloor_lub 0); lra).
  assert (Hsum1 : (n + m < a + 2)%Z).
  { apply lt_IZR. rewrite !plus_IZR. lra. }
  assert (Hsum2 : (a - 1 < n + m)%Z).
  { apply lt_IZR. rewrite minus_IZR, plus_IZR. lra. }
  assert (Hna : (n < a + 1)%Z).
  { apply lt_IZR. rewrite plus_IZR. lra. }
  assert (Hma : (m < a + 1)%Z).
  { apply lt_IZR. rewrite plus_IZR. lra. }
  lia.
Qed.

(** ** Facts about the file name *)

Section FileName.
Import App.
Open Scope string_scope.

Lemma split_nonempty (s : string) : split s <> [].
Proof.
  induction s as [| c s IH]; simpl; [discriminate |].
  destruct (Ascii.eqb c "."); [discriminate |].
  destruct (split s); discriminate.
Qed.

Lemma split_noDot (s : string) : noDot s = true -> split s = [s].
Proof.
  induction s as [| c s IH]; simpl; [reflexivity |].
  destruct (Ascii.eqb c "."); simpl; [discriminate |].
  intros H. now rewrite (IH H).
Qed.

Lemma split_at_dot (a b : string) :
  split (a ++ String "." b) = (split a ++ split b)%list.
Proof.
  induction a as [| c a IH]; simpl; [reflexivity |].
  destruct (Ascii.eqb c ".").
  - now rewrite IH.
  - rewrite IH. pose proof (split_nonempty a).
    destruct (split a); [contradiction | reflexivity].
Qed.

Lemma join_split (s : string) : join "." (split s) = s.
Proof.
  unfold join. induction s as [| c s IH]; [reflexivity |].
  cbn [split]. pose proof (split_nonempty s) as Hne.
  destruct (split s) as [| p ps]; [contradiction |].
  destruct (Ascii.eqb c ".") eqn:Hc.
  - apply Ascii.eqb_eq in Hc. subst c.
    change (concat "." ("" :: p :: ps))
      with ("" ++ "." ++ concat "." (p :: ps)).
    rewrite IH. reflexivity.
  - destruct ps as [| q ps].
    + simpl in IH. subst s. reflexivity.
    + change (concat "." (String c p :: q :: ps))
        with (String c (p ++ "." ++ concat "." (q :: ps))).
      change (concat "." (p :: q :: ps))
        with (p ++ "." ++ concat "." (q :: ps)) in IH.
      now rewrite IH.
Qed.

Lemma downloadName_suffix (fileName : string) :
  exists base, downloadName fileName = base ++ "-fade.png".
Proof. unfold downloadName. eauto. Qed.

Lemma downloadName_plain (fileName : string) :
  noDot fileName = true -> downloadName fileName = fileName ++ "-fade.png".
Proof.
  intros H. unfold downloadName. rewrite (split_noDot _ H). reflexivity.
Qed.

Lemma downloadName_extension (a b : string) :
  noDot b = true ->
  downloadName (a ++ String "." b) = a ++ "-fade.png".
Proof.
  intros H. unfold downloadName.
  rewrite split_at_dot, (split_noDot _ H).
  assert (Hlen : (1 <? List.length (split a ++ [b]))%nat = true).
  { apply Nat.ltb_lt. rewrite length_app. simpl.
    pose proof (split_nonempty a). destruct (split a); simpl; [tauto | lia]. }
  rewrite Hlen. unfold pop. rewrite removelast_last.
  now rewrite join_split.
Qed.

End FileName.

(** ** Concrete settings *)

Lemma clamp_inside (x : R) : 0 <= x <= 1 -> Rmax 0 (Rmin 1 x) = x.
Proof.
  intros H. rewrite Rmin_right by lra. now rewrite Rmax_right by lra.
Qed.

Lemma bounds_of (settings : GradientSettings) (s e : R) :
  startPoint settings / 100 = s -> endPoint settings / 100 = e ->
  0 <= s <= e -> e <= 1 ->
  lo settings = s /\ hi settings = e.
Proof.
  intros Hs He Hse He1. unfold lo, hi, safeStart, safeEnd.
  rewrite Hs, He, !clamp_inside by lra.
  now rewrite Rmin_left, Rmax_right by lra.
Qed.

Lemma wf_sampleImage (p : Pixel) (w h : nat) :
  wfPixel p -> wfImage (sampleImage p w h).
Proof. intros Hp x y _ _. exact Hp. Qed.

Lemma wf_opaqueGrey : wfPixel opaqueGrey.
Proof. unfold wfPixel, opaqueGrey. simpl. lia. Qed.

Lemma wf_transparentBlack : wfPixel transparentBlack.
Proof. unfold wfPixel, transparentBlack. simpl. lia. Qed.

Lemma axisParameter_withInvert (b : bool) (settings : GradientSettings)
      (w h x y : nat) :
  axisParameter (withInvert b settings) w h x y =
  axisParameter settings w h x y.
Proof. now rewrite !axisParameter_geometry. Qed.

Lemma applyUserStops_withFade_swap (a b : R) (settings : GradientSettings)
      (g : CanvasGradient) :
  applyUserStops (withFade a b settings) g =
  applyUserStops (withFade b a settings) g.
Proof.
  unfold applyUserStops, safeStart, safeEnd.
  cbn [withFade startPoint endPoint invert].
  rewrite (Rmin_comm (Rmax 0 (Rmin 1 (a / 100)))),
          (Rmax_comm (Rmax 0 (Rmin 1 (a / 100)))).
  reflexivity.
Qed.

(** ** The downward fade *)

Lemma downward_bounds : lo downwardSettings = 0 /\ hi downwardSettings = 1.
Proof. apply bounds_of; simpl; lra. Qed.

Lemma downward_axisParameter (w h x y : nat) :
  (0 < w)%nat ->
  axisParameter downwardSettings w h x y = Some (1 - rowFactor w h y).
Proof.
  intros Hw. rewrite axisParameter_geometry.
  change (axisGeometry downwardSettings w h) with (linearAxis 180 w h).
  rewrite downward_offset by assumption.
  f_equal. unfold rowFactor. lra.
Qed.

Lemma downward_alphaFactor (w h : nat) (t : R) :
  0 <= t <= 1 -> alphaFactor downwardSettings w h t = Some (1 - t).
Proof.
  intros Ht. rewrite alphaFactor_profile.
  destruct downward_bounds as [Hlo Hhi]. rewrite Hlo, Hhi.
  unfold fourStopProfile, plateauBefore, plateauAfter. cbn [downwardSettings invert].
  f_equal. rdec.
Qed.

Lemma rowFactor_bounds (w h y : nat) :
  (0 < w)%nat -> (y < h)%nat -> 0 < rowFactor w h y < 1.
Proof.
  intros Hw Hy. unfold rowFactor.
  pose proof (diagonal_pos w h Hw) as Hd.
  pose proof (diagonal_ge_height w h) as Hdh.
  assert (Hw0 : 0 < INR w) by now apply lt_0_INR.
  assert (Hstrict : INR h < sqrt (INR w * INR w + INR h * INR h)).
  { pose proof (diagonal_sqr w h) as Hsq. cbv zeta in Hsq.
    pose proof (pos_INR h).
    set (d := sqrt (INR w * INR w + INR h * INR h)) in *.
    destruct (Rlt_dec (INR h) d); [assumption | nra]. }
  assert (Hyh : INR y + 1 <= INR h).
  { rewrite <- S_INR. apply le_INR. lia. }
  pose proof (pos_INR y) as Hy0.
  set (d := sqrt (INR w * INR w + INR h * INR h)) in *.
  set (X := INR y + / 2 - INR h / 2).
  assert (HX : - d / 2 < X < d / 2) by (unfold X; lra).
  assert (Hq : X / d * d = X) by (field; lra).
  set (q := X / d) in *. nra.
Qed.

Lemma rowFactor_decreasing (w h y y' : nat) :
  (0 < w)%nat -> (y <= y')%nat -> rowFactor w h y' <= rowFactor w h y.
Proof.
  intros Hw Hyy. unfold rowFactor.
  pose proof (diagonal_pos w h Hw) as Hd.
  apply le_INR in Hyy.
  set (d := sqrt (INR w * INR w + INR h * INR h)) in *.
  assert (0 <= (INR y' - INR y) / d).
  { apply Rmult_le_pos; [lra |]. left. now apply Rinv_0_lt_compat. }
  replace ((INR y' + / 2 - INR h / 2) / d)
    with ((INR y + / 2 - INR h / 2) / d + (INR y' - INR y) / d)
    by (field; lra).
  lra.
Qed.

Lemma rowFactor_top (w h : nat) :
  (0 < w)%nat ->
  rowFactor w h 0 =
  / 2 + (INR h - 1) / (2 * sqrt (INR w * INR w + INR h * INR h)).
Proof.
  intros Hw. unfold rowFactor. pose proof (diagonal_pos w h Hw).
  simpl INR. field. lra.
Qed.

Lemma rowFactor_bottom (w h : nat) :
  (0 < w)%nat -> (0 < h)%nat ->
  rowFactor w h (h - 1) =
  / 2 - (INR h - 1) / (2 * sqrt (INR w * INR w + INR h * INR h)).
Proof.
  intros Hw Hh. unfold rowFactor. pose proof (diagonal_pos w h Hw).
  rewrite minus_INR by lia. simpl INR. field. lra.
Qed.

Lemma diagonal_4_3 : sqrt (INR 4 * INR 4 + INR 3 * INR 3) = 5.
Proof.
  replace (INR 4 * INR 4 + INR 3 * INR 3) with (5 * 5) by (simpl; lra).
  apply sqrt_square. lra.
Qed.

Lemma rowFactor_4_3 : rowFactor 4 3 0 = 7 / 10 /\ rowFactor 4 3 2 = 3 / 10.
Proof.
  unfold rowFactor. rewrite diagonal_4_3. simpl INR. split; lra.
Qed.

Lemma axisParameter_angle_180 (settings : GradientSettings) (w h x y : nat) :
  type settings = linear -> angle settings = 180 -> (0 < w)%nat ->
  axisParameter settings w h x y = Some (1 - rowFactor w h y).
Proof.
  intros Hty Hang Hw. rewrite axisParameter_geometry.
  unfold axisGeometry. rewrite Hty, Hang.
  rewrite downward_offset by assumption.
  f_equal. unfold rowFactor. lra.
Qed.


Lemma rowFactor_4_3_bottom_offset :
  axisParameter (withFade 20 60 defaultSettings) 4 3 0 2 = Some (7 / 10).
Proof.
  rewrite (axisParameter_angle_180 _ 4 3 0 2) by (reflexivity || lia).
  destruct rowFactor_4_3 as [_ Hbottom]. rewrite Hbottom. f_equal. lra.
Qed.

Lemma short_fade_bounds :
  lo (withFade 20 60 defaultSettings) = / 5 /\
  hi (withFade 20 60 defaultSettings) = 3 / 5.
Proof. apply bounds_of; simpl; lra. Qed.


(** ** The 1 by 1 bitmap *)

Lemma radialAxis_single :
  radialAxis 1 1 = RadialGradient (/ 2) (/ 2) 0 (/ 2) (/ 2) (/ 2).
Proof.
  unfold radialAxis. simpl INR. rewrite Rmax_left by lra.
  replace (1 / 2) with (/ 2) by lra. reflexivity.
Qed.

Lemma linearAxis_single (a : R) :
  linearAxis a 1 1 =
  let theta := (a - 90) * (PI / 180) in
  LinearGradient (/ 2 - cos theta * (sqrt 2 / 2))
                 (/ 2 - sin theta * (sqrt 2 / 2))
                 (/ 2 + cos theta * (sqrt 2 / 2))
                 (/ 2 + sin theta * (sqrt 2 / 2)).
Proof.
  unfold linearAxis. simpl INR. cbv zeta.
  replace (1 * 1 + 1 * 1) with 2 by lra.
  replace (1 / 2) with (/ 2) by lra. reflexivity.
Qed.

Lemma single_pixel_axisParameter (settings : GradientSettings) :
  axisParameter settings 1 1 0 0 =
  Some (match type settings with linear => / 2 | radial => 0 end).
Proof.
  rewrite axisParameter_geometry. unfold axisGeometry.
  destruct (type settings).
  - apply single_pixel_linear.
  - apply single_pixel_radial.
Qed.

(** ** Further properties of the rendering effect *)

Lemma unit_fraction (l h t : R) :
  l < t -> t < h -> 0 < (t - l) / (h - l) < 1.
Proof.
  intros Hl Hh.
  assert (Hq : (t - l) / (h - l) * (h - l) = t - l) by (field; lra).
  set (q := (t - l) / (h - l)) in *. nra.
Qed.

Lemma fraction_monotone (l h t1 t2 : R) :
  l < h -> t1 <= t2 -> (t1 - l) / (h - l) <= (t2 - l) / (h - l).
Proof.
  intros Hlh Ht.
  assert (H1 : (t1 - l) / (h - l) * (h - l) = t1 - l) by (field; lra).
  assert (H2 : (t2 - l) / (h - l) * (h - l) = t2 - l) by (field; lra).
  set (q1 := (t1 - l) / (h - l)) in *.
  set (q2 := (t2 - l) / (h - l)) in *. nra.
Qed.

(** A profile that starts high and ends low does not increase. *)
Lemma fourStopProfile_falls (a0 a1 l h t1 t2 : R) :
  l <= h -> a1 <= a0 -> t1 <= t2 ->
  fourStopProfile a0 a1 l h t2 <= fourStopProfile a0 a1 l h t1.
Proof.
  intros Hlh Ha Ht. unfold fourStopProfile.
  destruct (Rle_dec t2 l) as [H2l | H2l].
  { destruct (Rle_dec t1 l); lra. }
  destruct (Rle_dec t1 l) as [H1l | H1l].
  { destruct (Rle_dec h t2); [lra |].
    pose proof (unit_fraction l h t2 ltac:(lra) ltac:(lra)) as Hu.
    set (u := (t2 - l) / (h - l)) in *. nra. }
  destruct (Rle_dec h t1) as [Hh1 | Hh1].
  { destruct (Rle_dec h t2); lra. }
  pose proof (unit_fraction l h t1 ltac:(lra) ltac:(lra)) as Hu1.
  destruct (Rle_dec h t2) as [Hh2 | Hh2].
  { set (u := (t1 - l) / (h - l)) in *. nra. }
  pose proof (fraction_monotone l h t1 t2 ltac:(lra) Ht) as Hm.
  set (u1 := (t1 - l) / (h - l)) in *.
  set (u2 := (t2 - l) / (h - l)) in *. nra.
Qed.

Lemma profileOf_falls (settings : GradientSettings) (t1 t2 : R) :
  invert settings = false -> t1 <= t2 ->
  profileOf settings t2 <= profileOf settings t1.
Proof.
  intros Hinv Ht. destruct (lo_hi_range settings) as (_ & Hlh & _).
  unfold profileOf, plateauBefore, plateauAfter. rewrite Hinv.
  apply fourStopProfile_falls; lra.
Qed.

Lemma profileOf_rises (settings : GradientSettings) (t1 t2 : R) :
  invert settings = true -> t1 <= t2 ->
  profileOf settings t1 <= profileOf settings t2.
Proof.
  intros Hinv Ht. destruct (lo_hi_range settings) as (_ & Hlh & _).
  unfold profileOf, plateauBefore, plateauAfter. rewrite Hinv.
  pose proof (fourStopProfile_swap 1 0 (lo settings) (hi settings) t1) as H1.
  pose proof (fourStopProfile_swap 1 0 (lo settings) (hi settings) t2) as H2.
  replace (1 - 1) with 0 in H1, H2 by ring.
  replace (1 - 0) with 1 in H1, H2 by ring.
  rewrite H1, H2.
  pose proof (fourStopProfile_falls 1 0 (lo settings) (hi settings) t1 t2
                                    Hlh ltac:(lra) Ht).
  lra.
Qed.

Lemma profileOf_before (settings : GradientSettings) (t : R) :
  t <= lo settings -> profileOf settings t = plateauBefore settings.
Proof.
  intros Ht. unfold profileOf, fourStopProfile.
  destruct (Rle_dec t (lo settings)); [reflexivity | lra].
Qed.

Lemma profileOf_after (settings : GradientSettings) (t : R) :
  lo settings < t -> hi settings <= t ->
  profileOf settings t = plateauAfter settings.
Proof.
  intros Hl Hh. unfold profileOf, fourStopProfile.
  destruct (Rle_dec t (lo settings)); [lra |].
  destruct (Rle_dec (hi settings) t); [reflexivity | lra].
Qed.

(** The byte of a share of a byte does not exceed it. *)
Lemma to_u8_share_le (a : Z) (f : R) :
  (0 <= a <= 255)%Z -> 0 <= f <= 1 -> (0 <= to_u8 (IZR a * f) <= a)%Z.
Proof.
  intros Ha Hf. unfold to_u8.
  pose proof (Zfloor_bound (IZR a * f + / 2)) as Hn.
  set (n := Zfloor (IZR a * f + / 2)) in *.
  assert (Ha0 : 0 <= IZR a) by (apply IZR_le; lia).
  assert (Hn0 : (0 <= n)%Z) by (apply (Zfloor_lub 0); nra).
  assert (Hna : (n < a + 1)%Z).
  { apply lt_IZR. rewrite plus_IZR. nra. }
  lia.
Qed.

Lemma composite_forgets_canvas (image : Image) (settings : GradientSettings)
      (c1 c2 : Canvas) :
  composite (Some image) settings c1 = composite (Some image) settings c2.
Proof. reflexivity. Qed.

(** ** Further properties of the two axes *)

Lemma pixel_centre_bounds (n x : nat) :
  (x < n)%nat ->
  - ((INR n - 1) / 2) <= INR x + / 2 - INR n / 2 <= (INR n - 1) / 2.
Proof.
  intros Hx. pose proof (pos_INR x).
  assert (INR x + 1 <= INR n) by (rewrite <- S_INR; apply le_INR; lia).
  lra.
Qed.

(** The centre of a pixel projects strictly inside the diagonal-long axis. *)
Lemma projection_inside (a : R) (w h x y : nat) :
  (x < w)%nat -> (y < h)%nat ->
  let theta := (a - 90) * (PI / 180) in
  let d := sqrt (INR w * INR w + INR h * INR h) in
  - / 2 <
  ((INR x + / 2 - INR w / 2) * cos theta
   + (INR y + / 2 - INR h / 2) * sin theta) / d < / 2.
Proof.
  intros Hx Hy theta d.
  assert (Hw : (0 < w)%nat) by lia.
  assert (Hd : 0 < d) by (apply diagonal_pos; assumption).
  pose proof (diagonal_sqr w h) as Hsq. cbv zeta in Hsq. fold d in Hsq.
  assert (Hcs : cos theta * cos theta + sin theta * sin theta = 1).
  { pose proof (sin2_cos2 theta) as H. unfold Rsqr in H. lra. }
  pose proof (pixel_centre_bounds w x Hx) as HA.
  pose proof (pixel_centre_bounds h y Hy) as HB.
  assert (HW : 1 <= INR w) by (apply (le_INR 1); lia).
  assert (HH : 1 <= INR h) by (apply (le_INR 1); lia).
  set (A := INR x + / 2 - INR w / 2) in *.
  set (B := INR y + / 2 - INR h / 2) in *.
  set (c := cos theta) in *. set (s := sin theta) in *.
  set (m := A * c + B * s).
  assert (Hm : m * m <= A * A + B * B).
  { assert (He : m * m + (A * s - B * c) * (A * s - B * c)
                 = (A * A + B * B) * (c * c + s * s)) by (unfold m; ring).
    rewrite Hcs in He.
    pose proof (Rle_0_sqr (A * s - B * c)) as Hsqr. unfold Rsqr in Hsqr.
    lra. }
  assert (HA2 : A * A <= (INR w - 1) / 2 * ((INR w - 1) / 2)) by nra.
  assert (HB2 : B * B <= (INR h - 1) / 2 * ((INR h - 1) / 2)) by nra.
  assert (Hlt : (2 * m) * (2 * m) < d * d) by nra.
  assert (Hm2 : - d < 2 * m < d) by nra.
  assert (Hq : m / d * d = m) by (field; lra).
  set (q := m / d) in *. nra.
Qed.

Lemma linear_inside (settings : GradientSettings) (w h x y : nat) :
  type settings = linear -> (x < w)%nat -> (y < h)%nat ->
  exists t, axisParameter settings w h x y = Some t /\ 0 < t < 1.
Proof.
  intros Hty Hx Hy. rewrite axisParameter_geometry.
  unfold axisGeometry. rewrite Hty.
  rewrite linear_offset by lia. cbv zeta.
  pose proof (projection_inside (angle settings) w h x y Hx Hy) as Hp.
  cbv zeta in Hp.
  eexists. split; [reflexivity | lra].
Qed.

Lemma full_turn (a : R) :
  (a + 360 - 90) * (PI / 180) = (a - 90) * (PI / 180) + 2 * PI.
Proof. field. Qed.

Lemma half_turn (a : R) :
  (a + 180 - 90) * (PI / 180) = (a - 90) * (PI / 180) + PI.
Proof. field. Qed.

Lemma linearAxis_full_turn (a : R) (w h : nat) :
  linearAxis (a + 360) w h = linearAxis a w h.
Proof.
  unfold linearAxis. cbv zeta. rewrite full_turn.
  rewrite cos_plus, sin_plus, cos_2PI, sin_2PI.
  f_equal; ring.
Qed.

Lemma linear_half_turn (a : R) (w h : nat) (px py : R) :
  (0 < w)%nat ->
  exists t,
    offsetAt (linearAxis a w h) px py = Some t /\
    offsetAt (linearAxis (a + 180) w h) px py = Some (1 - t).
Proof.
  intros Hw. rewrite !linear_offset by assumption. cbv zeta.
  rewrite half_turn, neg_cos, neg_sin.
  pose proof (diagonal_pos w h Hw).
  eexists. split; [reflexivity |]. f_equal. field. lra.
Qed.

Lemma radial_axisParameter (settings : GradientSettings) (w h x y : nat) :
  type settings = radial -> (0 < w)%nat ->
  axisParameter settings w h x y =
  Some (sqrt (centreDistance2 w h x y) / (Rmax (INR w) (INR h) / 2)).
Proof.
  intros Hty Hw. rewrite axisParameter_geometry.
  unfold axisGeometry. rewrite Hty.
  now rewrite radial_offset.
Qed.

Lemma radius_pos (w h : nat) : (0 < w)%nat -> 0 < Rmax (INR w) (INR h) / 2.
Proof.
  intros Hw. apply lt_0_INR in Hw.
  pose proof (Rmax_l (INR w) (INR h)). lra.
Qed.

Lemma quotient_monotone (a b r : R) :
  0 < r -> a <= b -> a / r <= b / r.
Proof.
  intros Hr Hab. unfold Rdiv.
  apply Rmult_le_compat_r; [| assumption].
  left. now apply Rinv_0_lt_compat.
Qed.

(** The corner pixels of a square bitmap of side at least 4 lie outside the
    circle of the radial gradient. *)
Lemma square_corner_outside (n x y : nat) :
  (4 <= n)%nat -> (x = 0 \/ x = n - 1)%nat -> (y = 0 \/ y = n - 1)%nat ->
  1 < sqrt (centreDistance2 n n x y) / (Rmax (INR n) (INR n) / 2).
Proof.
  intros Hn Hx Hy.
  assert (HN : 4 <= INR n)
    by (pose proof (le_INR 4 n Hn) as H; simpl in H; lra).
  assert (Hr : Rmax (INR n) (INR n) = INR n)
    by (unfold Rmax; destruct (Rle_dec (INR n) (INR n)); reflexivity).
  rewrite Hr.
  assert (HX : (INR x + / 2 - INR n / 2) * (INR x + / 2 - INR n / 2)
               = (INR n - 1) / 2 * ((INR n - 1) / 2)).
  { destruct Hx as [-> | ->].
    - simpl INR. field.
    - rewrite minus_INR by lia. simpl INR. field. }
  assert (HY : (INR y + / 2 - INR n / 2) * (INR y + / 2 - INR n / 2)
               = (INR n - 1) / 2 * ((INR n - 1) / 2)).
  { destruct Hy as [-> | ->].
    - simpl INR. field.
    - rewrite minus_INR by lia. simpl INR. field. }
  unfold centreDistance2. rewrite HX, HY.
  assert (Hs : INR n / 2 <
               sqrt ((INR n - 1) / 2 * ((INR n - 1) / 2)
                     + (INR n - 1) / 2 * ((INR n - 1) / 2))).
  { rewrite <- (sqrt_square (INR n / 2)) at 1 by lra.
    apply sqrt_lt_1_alt. split; nra. }
  set (D := sqrt _) in *.
  assert (Hq : D / (INR n / 2) * (INR n / 2) = D) by (field; lra).
  set (q := D / (INR n / 2)) in *. nra.
Qed.

(** ** Properties of the handlers of App *)

Lemma handle_keeps_type (st : AppHandlers.State) (a : AppHandlers.Action) :
  type (AppHandlers.settings st) = linear ->
  type (AppHandlers.settings (AppHandlers.handle st a)) = linear.
Proof. intros H. destruct a; simpl; auto. Qed.

Lemma fold_keeps_type (actions : list AppHandlers.Action) :
  forall st,
    type (AppHandlers.settings st) = linear ->
    type (AppHandlers.settings (fold_left AppHandlers.handle actions st))
    = linear.
Proof.
  induction actions as [| a actions IH]; intros st H; simpl.
  - exact H.
  - apply IH. now apply handle_keeps_type.
Qed.

Lemma handle_keeps_ranges (st : AppHandlers.State) (a : AppHandlers.Action) :
  AppHandlers.fromSliders a ->
  sliderRanges (AppHandlers.settings st) ->
  sliderRanges (AppHandlers.settings (AppHandlers.handle st a)).
Proof.
  unfold sliderRanges. intros Ha (Hang & Hs & He).
  destruct a; simpl in *; repeat split; lra.
Qed.

Lemma fold_keeps_ranges (actions : list AppHandlers.Action) :
  forall st,
    Forall AppHandlers.fromSliders actions ->
    sliderRanges (AppHandlers.settings st) ->
    sliderRanges
      (AppHandlers.settings (fold_left AppHandlers.handle actions st)).
Proof.
  induction actions as [| a actions IH]; intros st Hall Hst; simpl.
  - exact Hst.
  - inversion Hall as [| a' l' Ha Hrest]; subst.
    apply IH; [assumption |]. now apply handle_keeps_ranges.
Qed.

Lemma initial_ranges : sliderRanges (AppHandlers.settings AppHandlers.initial).
Proof. unfold sliderRanges. simpl. lra. Qed.

Lemma ranges_need_no_clamping (s : GradientSettings) :
  sliderRanges s ->
  safeStart s = startPoint s / 100 /\ safeEnd s = endPoint s / 100.
Proof.
  intros (_ & Hs & He). unfold safeStart, safeEnd.
  split; apply clamp_inside; lra.
Qed.

(** ** Invert against a half turn *)

Lemma clamp_mirror (x : R) :
  Rmax 0 (Rmin 1 ((100 - x) / 100)) = 1 - Rmax 0 (Rmin 1 (x / 100)).
Proof.
  replace ((100 - x) / 100) with (1 - x / 100) by field.
  unfold Rmax, Rmin.
  destruct (Rle_dec 1 (1 - x / 100)); destruct (Rle_dec 1 (x / 100)); rdec.
Qed.

Lemma mirrored_bounds (settings : GradientSettings) :
  lo (mirrored settings) = 1 - hi settings /\
  hi (mirrored settings) = 1 - lo settings.
Proof.
  unfold lo, hi, safeStart, safeEnd. cbn [mirrored startPoint endPoint].
  rewrite !clamp_mirror.
  set (s := Rmax 0 (Rmin 1 (startPoint settings / 100))).
  set (e := Rmax 0 (Rmin 1 (endPoint settings / 100))).
  unfold Rmax, Rmin.
  destruct (Rle_dec (1 - e) (1 - s)); destruct (Rle_dec s e); split; lra.
Qed.

Lemma fourStopProfile_mirror (a0 a1 l h t : R) :
  l < h ->
  fourStopProfile a1 a0 (1 - h) (1 - l) (1 - t) = fourStopProfile a0 a1 l h t.
Proof.
  intros Hlh. unfold fourStopProfile.
  destruct (Rle_dec t l) as [Htl | Htl].
  { destruct (Rle_dec (1 - t) (1 - h)); [lra |].
    destruct (Rle_dec (1 - l) (1 - t)); [reflexivity | lra]. }
  destruct (Rle_dec h t) as [Hht | Hht].
  { destruct (Rle_dec (1 - t) (1 - h)); [reflexivity | lra]. }
  destruct (Rle_dec (1 - t) (1 - h)); [lra |].
  destruct (Rle_dec (1 - l) (1 - t)); [lra |].
  field. lra.
Qed.

Lemma profileOf_mirrored (settings : GradientSettings) (t : R) :
  lo settings < hi settings ->
  profileOf (mirrored settings) (1 - t) = profileOf settings t.
Proof.
  intros Hlh. unfold profileOf.
  destruct (mirrored_bounds settings) as [Hlo Hhi]. rewrite Hlo, Hhi.
  replace (plateauBefore (mirrored settings)) with (plateauAfter settings)
    by (unfold plateauBefore, plateauAfter; cbn [mirrored invert];
        now destruct (invert settings)).
  replace (plateauAfter (mirrored settings)) with (plateauBefore settings)
    by (unfold plateauBefore, plateauAfter; cbn [mirrored invert];
        now destruct (invert settings)).
  now apply fourStopProfile_mirror.
Qed.

Lemma axisParameter_mirrored (settings : GradientSettings) (w h x y : nat) :
  type settings = linear -> (0 < w)%nat ->
  exists t,
    axisParameter settings w h x y = Some t /\
    axisParameter (mirrored settings) w h x y = Some (1 - t).
Proof.
  intros Hty Hw. rewrite !axisParameter_geometry. unfold axisGeometry.
  cbn [mirrored type angle]. rewrite Hty.
  now apply linear_half_turn.
Qed.

Lemma masked_half_grey :
  maskedPixel (/ 2) opaqueGrey =
  {| red := 10; green := 20; blue := 30; alpha := 128 |}.
Proof.
  unfold maskedPixel, drawnPixel, blend, colorOfPixel, opaqueGrey.
  cbn [red green blue alpha ca cr cg cb rgba transparentBlack].
  rewrite (to_u8_eq 10 (255 / 255 * 10 + 0 * (1 - 255 / 255))) by (lia || lra).
  rewrite (to_u8_eq 20 (255 / 255 * 20 + 0 * (1 - 255 / 255))) by (lia || lra).
  rewrite (to_u8_eq 30 (255 / 255 * 30 + 0 * (1 - 255 / 255))) by (lia || lra).
  rewrite (to_u8_eq 255 (255 * (255 / 255) + 0 * (1 - 255 / 255)))
    by (lia || lra).
  rewrite (to_u8_eq 5 (10 * / 2)) by (lia || lra).
  rewrite (to_u8_eq 10 (20 * / 2)) by (lia || lra).
  rewrite (to_u8_eq 15 (30 * / 2)) by (lia || lra).
  rewrite (to_u8_eq 128 (255 * / 2)) by (lia || lra).
  unfold unpremultiply. cbn [red green blue alpha Z.eqb].
  rewrite (to_u8_eq 10 (5 * 255 / 128)) by (lia || lra).
  rewrite (to_u8_eq 20 (10 * 255 / 128)) by (lia || lra).
  rewrite (to_u8_eq 30 (15 * 255 / 128)) by (lia || lra).
  reflexivity.
Qed.

(** A pixel masked with factor 1 keeps its alpha, and reads back exactly
    when it is opaque. *)
Lemma maskedPixel_kept (p : Pixel) :
  wfPixel p ->
  alpha (maskedPixel 1 p) = alpha p /\
  (alpha p = 255%Z -> maskedPixel 1 p = p).
Proof.
  intros Hp. pose proof Hp as (_ & _ & _ & Ha).
  assert (Hk : to_u8 (IZR (alpha p) * 1) = alpha p)
    by (rewrite Rmult_1_r; now apply to_u8_IZR).
  split.
  - now rewrite alpha_maskedPixel.
  - intros Hop. apply maskedPixel_opaque; [assumption | lra |].
    now rewrite Hk.
Qed.

Lemma maskedPixel_zero (p : Pixel) :
  wfPixel p -> maskedPixel 0 p = transparentBlack.
Proof.
  intros Hp. apply maskedPixel_cleared; [assumption |].
  rewrite Rmult_0_r. apply to_u8_zero.
Qed.

Lemma centreDistance2_nonneg (w h x y : nat) : 0 <= centreDistance2 w h x y.
Proof.
  unfold centreDistance2.
  pose proof (Rle_0_sqr (INR x + / 2 - INR w / 2)) as Hx.
  pose proof (Rle_0_sqr (INR y + / 2 - INR h / 2)) as Hy.
  unfold Rsqr in Hx, Hy. lra.
Qed.

(** A point is beyond the circle exactly when its squared distance exceeds
    the squared radius. *)
Lemma beyond_circle (D r : R) :
  0 <= D -> 0 < r -> (1 < sqrt D / r <-> r * r < D).
Proof.
  intros HD Hr.
  assert (Hq : sqrt D / r * r = sqrt D) by (field; lra).
  pose proof (sqrt_pos D) as Hs. pose proof (sqrt_sqrt D HD) as Hss.
  split.
  - intros H1. assert (r < sqrt D) by (set (q := sqrt D / r) in *; nra).
    nra.
  - intros Hlt. assert (Hrs : r < sqrt D).
    { rewrite <- (sqrt_square r) by lra. apply sqrt_lt_1_alt. split; nra. }
    set (q := sqrt D / r) in *. nra.
Qed.

(** ** The effect on numbers that need not be finite *)

Lemma js_div_finite (x y : R) :
  y <> 0 -> JS.div (JS.Finite x) (JS.Finite y) = JS.Finite (x / y).
Proof.
  intros Hy. unfold JS.div. destruct (Req_dec_T y 0); [contradiction |].
  reflexivity.
Qed.

Lemma js_clamp_finite (x : R) :
  JS.Math_max (JS.Finite 0)
              (JS.Math_min (JS.Finite 1) (JS.div (JS.Finite x) (JS.Finite 100)))
  = JS.Finite (Rmax 0 (Rmin 1 (x / 100))).
Proof. rewrite js_div_finite by lra. reflexivity. Qed.

(** Whatever is not NaN is clamped to a finite value between 0 and 1. *)
Lemma js_clamp_range (v : JS.Number) :
  JS.isNaN v = false ->
  exists r,
    JS.Math_max (JS.Finite 0)
                (JS.Math_min (JS.Finite 1) (JS.div v (JS.Finite 100)))
    = JS.Finite r /\ 0 <= r <= 1.
Proof.
  intros Hv. destruct v as [x | | |]; try discriminate.
  - rewrite js_clamp_finite. eexists. split; [reflexivity |].
    unfold Rmax, Rmin. destruct (Rle_dec 1 (x / 100)); rdec.
  - unfold JS.div. destruct (Rlt_dec 100 0); [lra |].
    exists (Rmax 0 1). split; [reflexivity |].
    rewrite Rmax_right by lra. lra.
  - unfold JS.div. destruct (Rlt_dec 100 0); [lra |].
    exists 0. split; [reflexivity | lra].
Qed.

Lemma js_clamp_nan :
  JS.Math_max (JS.Finite 0)
              (JS.Math_min (JS.Finite 1) (JS.div JS.NaN (JS.Finite 100)))
  = JS.NaN.
Proof. reflexivity. Qed.

Lemma js_addColorStop_finite (o : R) (c : Color) (g : CanvasGradient) :
  JS.addColorStop (JS.Finite o) c g = addColorStop o c g.
Proof. reflexivity. Qed.

Lemma js_applyUserStops_finite (settings : GradientSettings)
      (g : CanvasGradient) :
  JS.applyUserStops (JS.ofFinite settings) g = applyUserStops settings g.
Proof.
  destruct settings as [a sp ep inv ty].
  unfold JS.applyUserStops, JS.safeStart, JS.safeEnd, applyUserStops,
    safeStart, safeEnd.
  cbn [JS.ofFinite JS.startPoint JS.endPoint JS.invert
       startPoint endPoint invert].
  rewrite !js_clamp_finite. reflexivity.
Qed.

Lemma js_prepareGradient_finite (settings : GradientSettings)
      (canvas : Canvas) :
  JS.prepareGradient (JS.ofFinite settings) canvas =
  prepareGradient settings canvas.
Proof. destruct settings as [a sp ep inv ty]. destruct ty; reflexivity. Qed.

Lemma js_composite_finite (image : option Image)
      (settings : GradientSettings) (canvas : Canvas) :
  JS.composite image (JS.ofFinite settings) canvas =
  composite image settings canvas.
Proof.
  destruct image as [image |]; [| reflexivity].
  unfold JS.composite, composite. cbv zeta.
  rewrite js_prepareGradient_finite.
  destruct (prepareGradient settings _) as [g | e]; [| reflexivity].
  cbn [bind]. now rewrite js_applyUserStops_finite.
Qed.

Lemma js_stops_ok (settings : JS.Settings) (g : CanvasGradient) :
  JS.isNaN (JS.startPoint settings) = false ->
  JS.isNaN (JS.endPoint settings) = false ->
  exists g', JS.applyUserStops settings g = Ok g'.
Proof.
  intros Hs He.
  destruct (js_clamp_range _ Hs) as (a & Ha & Har).
  destruct (js_clamp_range _ He) as (b & Hb & Hbr).
  unfold JS.applyUserStops, JS.safeStart, JS.safeEnd. rewrite Ha, Hb.
  cbn [JS.Math_min JS.Math_max].
  assert (Hmin : 0 <= Rmin a b <= 1)
    by (unfold Rmin; destruct (Rle_dec a b); lra).
  assert (Hmax : 0 <= Rmax a b <= 1)
    by (unfold Rmax; destruct (Rle_dec a b); lra).
  destruct (JS.invert settings);
    repeat (rewrite js_addColorStop_finite;
            rewrite addColorStop_ok by lra; cbn [bind geometry stops]);
    eauto.
Qed.

Lemma js_stops_throw (settings : JS.Settings) (g : CanvasGradient) :
  JS.isNaN (JS.startPoint settings) = true \/
  JS.isNaN (JS.endPoint settings) = true ->
  JS.applyUserStops settings g = Throw TypeError.
Proof.
  intros Hnan.
  assert (Hmin : JS.Math_min (JS.safeStart settings) (JS.safeEnd settings)
                 = JS.NaN).
  { unfold JS.safeStart, JS.safeEnd. destruct Hnan as [H | H].
    - destruct (JS.startPoint settings); try discriminate.
      rewrite js_clamp_nan. reflexivity.
    - destruct (JS.endPoint settings); try discriminate.
      rewrite js_clamp_nan.
      now destruct (JS.Math_max _ (JS.Math_min _ (JS.div _ _))). }
  unfold JS.applyUserStops. rewrite Hmin.
  rewrite !js_addColorStop_finite.
  destruct (JS.invert settings);
    rewrite addColorStop_ok by lra; reflexivity.
Qed.

Lemma js_cos_not_finite (v : JS.Number) :
  JS.isFinite v = false -> JS.Math_cos v = JS.NaN.
Proof. now destruct v. Qed.

Lemma js_scaled_not_finite (v : JS.Number) (c : R) :
  JS.isFinite v = false -> JS.isFinite (JS.mul v (JS.Finite c)) = false.
Proof.
  destruct v; try discriminate; intros _; try reflexivity;
    unfold JS.mul, JS.signed;
    destruct (Rlt_dec 0 c); try reflexivity;
    destruct (Rlt_dec c 0); reflexivity.
Qed.

Lemma js_shifted_not_finite (v : JS.Number) (c : R) :
  JS.isFinite v = false -> JS.isFinite (JS.sub v (JS.Finite c)) = false.
Proof. now destruct v. Qed.

Lemma js_prepare_throw (settings : JS.Settings) (canvas : Canvas) :
  JS.type settings = linear -> JS.isFinite (JS.angle settings) = false ->
  JS.prepareGradient settings canvas = Throw TypeError.
Proof.
  intros Hty Hang. unfold JS.prepareGradient. rewrite Hty. cbv zeta.
  rewrite js_cos_not_finite
    by (apply js_scaled_not_finite, js_shifted_not_finite; assumption).
  reflexivity.
Qed.

Lemma js_prepare_ok (settings : JS.Settings) (canvas : Canvas) :
  JS.type settings = radial \/ JS.isFinite (JS.angle settings) = true ->
  exists g, JS.prepareGradient settings canvas = Ok g.
Proof.
  intros H. unfold JS.prepareGradient.
  destruct (JS.type settings) eqn:Hty.
  - destruct H as [H | H]; [discriminate |].
    destruct (JS.angle settings); try discriminate.
    cbn. eauto.
  - unfold createRadialGradient.
    pose proof (radius_nonneg (canvas_width canvas) (canvas_height canvas)).
    rdec. eauto.
Qed.

Lemma js_prepare_cases (settings : JS.Settings) (canvas : Canvas) :
  JS.prepareGradient settings canvas = Throw TypeError \/
  exists g, JS.prepareGradient settings canvas = Ok g.
Proof.
  destruct (JS.type settings) eqn:Hty.
  - destruct (JS.isFinite (JS.angle settings)) eqn:Hang.
    + right. apply js_prepare_ok. now right.
    + left. now apply js_prepare_throw.
  - right. apply js_prepare_ok. now left.
Qed.

Lemma js_composite_ok (image : Image) (settings : JS.Settings)
      (canvas : Canvas) :
  JS.isNaN (JS.startPoint settings) = false ->
  JS.isNaN (JS.endPoint settings) = false ->
  JS.type settings = radial \/ JS.isFinite (JS.angle settings) = true ->
  exists out,
    JS.composite (Some image) settings canvas = Ok out /\
    canvas_width out = width image /\
    canvas_height out = height image.
Proof.
  intros Hs He Hang. unfold JS.composite. cbv zeta.
  destruct (js_prepare_ok settings
              (setGlobalCompositeOperation destination_in
                 (drawImage image 0 0
                    (clearRect 0 0
                       (canvas_width (setHeight (height image)
                                        (setWidth (width image) canvas)))
                       (canvas_height (setHeight (height image)
                                         (setWidth (width image) canvas)))
                       (setHeight (height image)
                                  (setWidth (width image) canvas)))))
              Hang) as (g & Hg).
  rewrite Hg. cbn [bind].
  destruct (js_stops_ok settings g Hs He) as (g' & Hg').
  rewrite Hg'. cbn [bind].
  eexists. split; [reflexivity |]. split; reflexivity.
Qed.

Lemma js_composite_throw (image : Image) (settings : JS.Settings)
      (canvas : Canvas) :
  JS.isNaN (JS.startPoint settings) = true \/
  JS.isNaN (JS.endPoint settings) = true \/
  (JS.type settings = linear /\ JS.isFinite (JS.angle settings) = false) ->
  JS.composite (Some image) settings canvas = Throw TypeError.
Proof.
  intros H. unfold JS.composite. cbv zeta.
  match goal with
  | |- bind (JS.prepareGradient settings ?c) _ = _ =>
      destruct (js_prepare_cases settings c) as [Hp | (g & Hp)]; rewrite Hp
  end; [reflexivity |].
  cbn [bind].
  destruct H as [H | [H | (Hty & Hang)]].
  - rewrite js_stops_throw by (now left). reflexivity.
  - rewrite js_stops_throw by (now right). reflexivity.
  - match type of Hp with
    | JS.prepareGradient settings ?c = _ =>
        rewrite (js_prepare_throw settings c Hty Hang) in Hp
    end. discriminate.
Qed.

(** On a 4 by 3 bitmap with the angle at 180: the middle row sits inside the
    default fade zone, at factor 1/2; with fadeEnd at 60 the bottom row sits
    on the second plateau, at factor 0. *)
Lemma four_stop_examples :
  alphaFactor defaultSettings 4 3 (/ 2) = Some (/ 2) /\
  alphaFactor (withFade 20 60 defaultSettings) 4 3 (7 / 10) = Some 0.
Proof.
  rewrite !alphaFactor_profile.
  destruct (bounds_of defaultSettings (/ 5) (4 / 5)) as [Hlo Hhi];
    [simpl; lra | simpl; lra | lra | lra |].
  destruct short_fade_bounds as [Hlo' Hhi'].
  unfold fourStopProfile, plateauBefore, plateauAfter.
  rewrite Hlo, Hhi, Hlo', Hhi'. simpl invert.
  split; f_equal; rdec; field.
Qed.

(** ** The claims *)






(** C3, as stated, fails on a pixel that is not opaque.  A fully transparent
    source pixel comes out with alpha 0 with and without inversion, and 0 is
    not 255 - 0. *)
Lemma C3_transparent_pixel :
  outputPixel (sampleImage transparentBlack 1 1)
              (withInvert true radialSettings) blankCanvas 0 0
  = Some transparentBlack /\
  outputPixel (sampleImage transparentBlack 1 1)
              (withInvert false radialSettings) blankCanvas 0 0
  = Some transparentBlack /\
  alpha transparentBlack <> (255 - alpha transparentBlack)%Z.
Proof.
  assert (Hwf : wfImage (sampleImage transparentBlack 1 1))
    by apply wf_sampleImage, wf_transparentBlack.
  assert (Hpix : forall b,
             outputPixel (sampleImage transparentBlack 1 1)
                         (withInvert b radialSettings) blankCanvas 0 0
             = Some transparentBlack).
  { intros b.
    rewrite (composite_pixel _ (withInvert b radialSettings) _ 0 0 0);
      [| simpl; lia | simpl; lia
       | rewrite axisParameter_geometry; exact single_pixel_radial].
    f_equal. apply maskedPixel_cleared; [apply wf_transparentBlack |].
    simpl. rewrite Rmult_0_l. apply to_u8_zero. }
  split; [apply Hpix |]. split; [apply Hpix |].
  simpl. lia.
Qed.

(** C3 (amended): at every pixel the factor applied with invert = true is one
    minus the factor applied with invert = false, so the two output alphas
    share the alpha of the source pixel: after rounding they add up to the
    source alpha or to one more. *)
Theorem C3_invert_shares_alpha
        (image : Image) (settings : GradientSettings) (canvas : Canvas)
        (x y : nat) :
  wfImage image ->
  (x < width image)%nat -> (y < height image)%nat ->
  exists t f p q,
    axisParameter settings (width image) (height image) x y = Some t /\
    alphaFactor (withInvert false settings) (width image) (height image) t
    = Some f /\
    alphaFactor (withInvert true settings) (width image) (height image) t
    = Some (1 - f) /\
    outputPixel image (withInvert true settings) canvas x y = Some p /\
    outputPixel image (withInvert false settings) canvas x y = Some q /\
    (alpha p + alpha q = alpha (pixels image x y) \/
     alpha p + alpha q = alpha (pixels image x y) + 1)%Z.
Proof.
  intros Hwf Hx Hy.
  destruct (axisParameter_defined settings (width image) (height image) x y)
    as (t & Ht); [lia |].
  destruct (composite_pixel_alpha image (withInvert true settings) canvas
                                  x y t Hwf Hx Hy) as (p & Hp & Hpa);
    [rewrite axisParameter_withInvert; exact Ht |].
  destruct (composite_pixel_alpha image (withInvert false settings) canvas
                                  x y t Hwf Hx Hy) as (q & Hq & Hqa);
    [rewrite axisParameter_withInvert; exact Ht |].
  exists t, (profileOf (withInvert false settings) t), p, q.
  split; [exact Ht |].
  split; [apply alphaFactor_profile |].
  split; [rewrite alphaFactor_profile; fold (profileOf (withInvert true settings) t);
          now rewrite profileOf_invert |].
  split; [exact Hp |]. split; [exact Hq |].
  rewrite Hpa, Hqa, profileOf_invert.
  destruct (Hwf x y Hx Hy) as (_ & _ & _ & Ha).
  pose proof (profileOf_range (withInvert false settings) t) as Hf.
  set (f := profileOf (withInvert false settings) t) in *.
  replace (IZR (alpha (pixels image x y)) * (1 - f))
    with (IZR (alpha (pixels image x y)) - IZR (alpha (pixels image x y)) * f)
    by ring.
  apply to_u8_shares; [assumption |].
  assert (0 <= IZR (alpha (pixels image x y))) by (apply IZR_le; lia).
  nra.
Qed.

Lemma C3_invert_shares_alpha_witness :
  wfImage (sampleImage opaqueGrey 2 3) /\
  (1 < width (sampleImage opaqueGrey 2 3))%nat /\
  (2 < height (sampleImage opaqueGrey 2 3))%nat /\
  exists t f p q,
    axisParameter defaultSettings 2 3 1 2 = Some t /\
    alphaFactor (withInvert false defaultSettings) 2 3 t = Some f /\
    alphaFactor (withInvert true defaultSettings) 2 3 t = Some (1 - f) /\
    outputPixel (sampleImage opaqueGrey 2 3)
                (withInvert true defaultSettings) blankCanvas 1 2 = Some p /\
    outputPixel (sampleImage opaqueGrey 2 3)
                (withInvert false defaultSettings) blankCanvas 1 2 = Some q /\
    (alpha p + alpha q = 255 \/ alpha p + alpha q = 255 + 1)%Z.
Proof.
  assert (Hwf : wfImage (sampleImage opaqueGrey 2 3))
    by apply wf_sampleImage, wf_opaqueGrey.
  split; [exact Hwf |].
  split; [simpl; lia |].
  split; [simpl; lia |].
  apply (C3_invert_shares_alpha (sampleImage opaqueGrey 2 3) defaultSettings
                                blankCanvas 1 2 Hwf); simpl; lia.
Defined.

(** C4: the effect run with fadeStart = a, fadeEnd = b and run with
    fadeStart = b, fadeEnd = a give the same result; each value is clamped on
    its own and only the smaller and the larger of the two are used. *)
Theorem C4_fade_pair_unordered
        (image : option Image) (settings : GradientSettings) (canvas : Canvas)
        (a b : R) :
  composite image (withFade a b settings) canvas =
  composite image (withFade b a settings) canvas /\
  lo (withFade a b settings) =
  Rmin (Rmax 0 (Rmin 1 (a / 100))) (Rmax 0 (Rmin 1 (b / 100))) /\
  hi (withFade a b settings) =
  Rmax (Rmax 0 (Rmin 1 (a / 100))) (Rmax 0 (Rmin 1 (b / 100))) /\
  lo (withFade a b settings) = lo (withFade b a settings) /\
  hi (withFade a b settings) = hi (withFade b a settings).
Proof.
  split; [| repeat split].
  - destruct image as [image |]; [| reflexivity].
    unfold composite. cbv zeta.
    rewrite !prepareGradient_ok. cbn [bind].
    change (axisGeometry (withFade a b settings))
      with (axisGeometry (withFade b a settings)).
    now rewrite applyUserStops_withFade_swap.
  - unfold lo, hi, safeStart, safeEnd. cbn. apply Rmin_comm.
  - unfold lo, hi, safeStart, safeEnd. cbn. apply Rmax_comm.
Qed.

(** C5, as stated, fails in both halves.  The effect has no check of the
    dimensions: on a 0 by 5 bitmap it throws nothing, completes and leaves a
    canvas of that zero-area size.  And a numeric value can be rejected: with
    fadeStart NaN the clamp gives NaN, and addColorStop throws TypeError. *)
Lemma C5_zero_area_accepted_nan_rejected :
  (exists out,
      composite (Some (sampleImage opaqueGrey 0 5)) defaultSettings blankCanvas
      = Ok out /\
      canvas_width out = 0%nat /\ canvas_height out = 5%nat /\
      forall e,
        composite (Some (sampleImage opaqueGrey 0 5)) defaultSettings
                  blankCanvas
        <> Throw e) /\
  JS.composite (Some (sampleImage opaqueGrey 0 5)) (JS.ofFinite defaultSettings)
               blankCanvas
  = composite (Some (sampleImage opaqueGrey 0 5)) defaultSettings blankCanvas
  /\
  JS.composite (Some (sampleImage opaqueGrey 2 3))
               {| JS.angle := JS.Finite 180; JS.startPoint := JS.NaN;
                  JS.endPoint := JS.Finite 80; JS.invert := false;
                  JS.type := linear |}
               blankCanvas
  = Throw TypeError.
Proof.
  split; [| split].
  - destruct (composite_result (sampleImage opaqueGrey 0 5) defaultSettings
                               blankCanvas) as (out & Hout & Hw & Hh & _).
    exists out. repeat split; try assumption.
    intros e He. rewrite Hout in He. discriminate.
  - apply js_composite_finite.
  - apply js_composite_throw. left. reflexivity.
Qed.

(** C5 (amended): the effect has no InvalidDimensions failure, and for finite
    values of the parameters it has no failure at all: for every bitmap, of
    zero area or not, it completes, the canvas takes the size of the bitmap,
    and values out of range are clamped.  Infinite fade points are clamped as
    well.  The effect fails, with the TypeError of the Canvas interface, when
    a fade point is NaN, or when the angle is not finite under the linear
    shape; in every other case it succeeds. *)
Theorem C5_composite_failures (image : Image) (canvas : Canvas) :
  (forall settings : GradientSettings,
      JS.composite (Some image) (JS.ofFinite settings) canvas =
      composite (Some image) settings canvas /\
      exists out,
        composite (Some image) settings canvas = Ok out /\
        canvas_width out = width image /\
        canvas_height out = height image /\
        0 <= safeStart settings <= 1 /\ 0 <= safeEnd settings <= 1) /\
  (forall settings : JS.Settings,
      JS.isNaN (JS.startPoint settings) = false ->
      JS.isNaN (JS.endPoint settings) = false ->
      JS.type settings = radial \/ JS.isFinite (JS.angle settings) = true ->
      exists out,
        JS.composite (Some image) settings canvas = Ok out /\
        canvas_width out = width image /\
        canvas_height out = height image) /\
  (forall settings : JS.Settings,
      JS.isNaN (JS.startPoint settings) = true \/
      JS.isNaN (JS.endPoint settings) = true \/
      (JS.type settings = linear /\
       JS.isFinite (JS.angle settings) = false) ->
      JS.composite (Some image) settings canvas = Throw TypeError).
Proof.
  split; [| split].
  - intros settings. split; [apply js_composite_finite |].
    destruct (composite_result image settings canvas)
      as (out & Hout & Hw & Hh & _).
    exists out. repeat split; try assumption;
      solve [apply safeStart_range | apply safeEnd_range].
  - intros settings Hs He Hang. now apply js_composite_ok.
  - intros settings H. now apply js_composite_throw.
Qed.

(** C6, as stated, fails in its consequence: the axis has the length of the
    diagonal, so the rows of the bitmap cover only the middle part of it.  On
    a 4 by 3 bitmap (diagonal 5) the factor is 7/10 on the top row and 3/10
    on the bottom row; on a 3 by 1 bitmap the only row, which is the top and
    the bottom row, has factor 1/2. *)
Lemma C6_rows_inside_the_axis :
  axisParameter downwardSettings 4 3 0 0 = Some (3 / 10) /\
  alphaFactor downwardSettings 4 3 (3 / 10) = Some (7 / 10) /\
  axisParameter downwardSettings 4 3 0 2 = Some (7 / 10) /\
  alphaFactor downwardSettings 4 3 (7 / 10) = Some (3 / 10) /\
  axisParameter downwardSettings 3 1 0 0 = Some (/ 2) /\
  alphaFactor downwardSettings 3 1 (/ 2) = Some (/ 2).
Proof.
  destruct rowFactor_4_3 as [Htop Hbottom].
  assert (Hmid : rowFactor 3 1 0 = / 2).
  { unfold rowFactor. simpl INR.
    replace (0 + / 2 - 1 / 2) with 0 by lra.
    unfold Rdiv. rewrite Rmult_0_l. lra. }
  repeat split.
  - rewrite downward_axisParameter, Htop by lia. f_equal. lra.
  - rewrite downward_alphaFactor by lra. f_equal. lra.
  - rewrite downward_axisParameter, Hbottom by lia. f_equal. lra.
  - rewrite downward_alphaFactor by lra. f_equal. lra.
  - rewrite downward_axisParameter, Hmid by lia. f_equal. lra.
  - rewrite downward_alphaFactor by lra. f_equal. lra.
Qed.

(** C6 (amended): for the linear shape the axis goes through the centre
    (w/2, h/2) in the direction (cos, sin) of the angle minus 90 degrees
    taken in radians, from the centre minus to the centre plus the direction
    times half the diagonal.  With angle 180, fadeStart 0, fadeEnd 100 and no
    inversion, the factor of row [y] is 1/2 - (y + 1/2 - h/2) / diagonal: it
    does not increase down the rows, stays strictly between 0 and 1, and is
    1/2 + (h-1)/(2 diagonal) on the top row and 1/2 - (h-1)/(2 diagonal) on
    the bottom row. *)
Theorem C6_linear_axis_and_downward_fade
        (a sp ep : R) (inv : bool) (canvas : Canvas) (w h x y : nat) :
  (0 < w)%nat -> (y < h)%nat ->
  prepareGradient {| angle := a; startPoint := sp; endPoint := ep;
                     invert := inv; type := linear |} canvas =
  (let theta := (a - 90) * (PI / 180) in
   let cx := INR (canvas_width canvas) / 2 in
   let cy := INR (canvas_height canvas) / 2 in
   let half := sqrt (INR (canvas_width canvas) * INR (canvas_width canvas)
                     + INR (canvas_height canvas) * INR (canvas_height canvas))
               / 2 in
   Ok (createLinearGradient (cx - cos theta * half) (cy - sin theta * half)
                            (cx + cos theta * half) (cy + sin theta * half)))
  /\
  axisParameter downwardSettings w h x y = Some (1 - rowFactor w h y) /\
  alphaFactor downwardSettings w h (1 - rowFactor w h y)
  = Some (rowFactor w h y) /\
  (forall y', (y <= y')%nat -> rowFactor w h y' <= rowFactor w h y) /\
  0 < rowFactor w h y < 1 /\
  rowFactor w h 0 =
  / 2 + (INR h - 1) / (2 * sqrt (INR w * INR w + INR h * INR h)) /\
  rowFactor w h (h - 1) =
  / 2 - (INR h - 1) / (2 * sqrt (INR w * INR w + INR h * INR h)).
Proof.
  intros Hw Hy.
  pose proof (rowFactor_bounds w h y Hw Hy) as Hb.
  split; [reflexivity |].
  split; [now apply downward_axisParameter |].
  split; [rewrite downward_alphaFactor by lra; f_equal; lra |].
  split; [intros y' Hyy; now apply rowFactor_decreasing |].
  split; [exact Hb |].
  split; [now apply rowFactor_top | apply rowFactor_bottom; lia].
Qed.

Lemma C6_linear_axis_and_downward_fade_witness :
  (0 < 4)%nat /\ (0 < 3)%nat /\
  axisParameter downwardSettings 4 3 0 0 = Some (1 - rowFactor 4 3 0) /\
  alphaFactor downwardSettings 4 3 (1 - rowFactor 4 3 0)
  = Some (rowFactor 4 3 0) /\
  (forall y', (0 <= y')%nat -> rowFactor 4 3 y' <= rowFactor 4 3 0) /\
  0 < rowFactor 4 3 0 < 1.
Proof.
  split; [lia |]. split; [lia |].
  destruct (C6_linear_axis_and_downward_fade 180 0 100 false blankCanvas
                                             4 3 0 0)
    as (_ & Ht & Hf & Hmono & Hb & _); [lia | lia |].
  repeat split; try assumption; apply Hb.
Defined.

(** C7: when the normalized bounds coincide the profile is a step at that
    point: the factor is the first plateau's value up to and at [lo], the
    second plateau's value beyond it.  It is defined for every [t] (no
    quotient with a zero divisor is formed) and takes no value in between. *)
Theorem C7_hard_step (settings : GradientSettings) (w h : nat) (t : R) :
  lo settings = hi settings ->
  alphaFactor settings w h t =
  Some (if Rle_dec t (lo settings)
        then (if invert settings then 0 else 1)
        else (if invert settings then 1 else 0)).
Proof.
  intros Heq. rewrite alphaFactor_profile.
  unfold fourStopProfile, plateauBefore, plateauAfter. rewrite <- Heq.
  destruct (Rle_dec t (lo settings)); [reflexivity |].
  destruct (Rle_dec (lo settings) t); [reflexivity | lra].
Qed.

Lemma C7_hard_step_witness :
  lo stepSettings = hi stepSettings /\
  alphaFactor stepSettings 4 3 (3 / 4) =
  Some (if Rle_dec (3 / 4) (lo stepSettings)
        then (if invert stepSettings then 0 else 1)
        else (if invert stepSettings then 1 else 0)).
Proof.
  assert (Heq : lo stepSettings = hi stepSettings).
  { destruct (bounds_of stepSettings (/ 2) (/ 2)) as [Hlo Hhi];
      [simpl; lra | simpl; lra | lra | lra |].
    now rewrite Hlo, Hhi. }
  split; [exact Heq |].
  exact (C7_hard_step stepSettings 4 3 (3 / 4) Heq).
Defined.

(** C8, as stated, fails twice on the 1 by 1 bitmap: the radius is 1/2 (it is
    not raised to 1), and under the linear shape the pixel is at t = 1/2, not
    at t = 0: with the fade across the whole axis an opaque pixel comes out
    with alpha 128, where the factor of t = 0 would leave it at 255. *)
Lemma C8_single_pixel_not_guarded :
  prepareGradient radialSettings (resetTo 1 1) =
  Ok {| geometry := RadialGradient (/ 2) (/ 2) 0 (/ 2) (/ 2) (/ 2);
        stops := [] |} /\
  / 2 < 1 /\
  axisParameter downwardSettings 1 1 0 0 = Some (/ 2) /\
  axisParameter downwardSettings 1 1 0 0 <> Some 0 /\
  alphaFactor downwardSettings 1 1 0 = Some 1 /\
  outputPixel (sampleImage opaqueGrey 1 1) downwardSettings blankCanvas 0 0 =
  Some {| red := 10; green := 20; blue := 30; alpha := 128 |}.
Proof.
  assert (Ht : axisParameter downwardSettings 1 1 0 0 = Some (/ 2))
    by apply (single_pixel_axisParameter downwardSettings).
  split.
  { rewrite prepareGradient_ok.
    change (axisGeometry radialSettings (canvas_width (resetTo 1 1))
                         (canvas_height (resetTo 1 1)))
      with (radialAxis 1 1).
    now rewrite radialAxis_single. }
  split; [lra |].
  split; [exact Ht |].
  split; [rewrite Ht; intros H; injection H; lra |].
  split; [rewrite downward_alphaFactor by lra; f_equal; lra |].
  rewrite (composite_pixel _ downwardSettings _ 0 0 (/ 2));
    [| simpl; lia | simpl; lia | exact Ht].
  assert (Hp : profileOf downwardSettings (/ 2) = / 2).
  { pose proof (downward_alphaFactor 1 1 (/ 2)) as H.
    rewrite alphaFactor_profile in H.
    fold (profileOf downwardSettings (/ 2)) in H.
    assert (Hr : 0 <= / 2 <= 1) by lra.
    specialize (H Hr). injection H as H. lra. }
  rewrite Hp. simpl pixels. now rewrite masked_half_grey.
Qed.

(** C8 (amended): the diagonal and the radius are used as computed, without a
    lower bound of 1: on a 1 by 1 bitmap the diagonal is the square root of 2
    and the radius is 1/2.  Both are positive on every bitmap that has
    pixels, so every pixel has an axis parameter and no quotient has a zero
    divisor.  The only pixel of a 1 by 1 bitmap gets the factor of t = 0
    under the radial shape and the factor of t = 1/2 under the linear one. *)
Theorem C8_single_pixel
        (settings : GradientSettings) (canvas : Canvas) (p : Pixel) :
  wfPixel p ->
  let t := match type settings with linear => / 2 | radial => 0 end in
  maskGradient settings 1 1 =
  Ok {| geometry :=
          match type settings with
          | linear =>
              let theta := (angle settings - 90) * (PI / 180) in
              LinearGradient (/ 2 - cos theta * (sqrt 2 / 2))
                             (/ 2 - sin theta * (sqrt 2 / 2))
                             (/ 2 + cos theta * (sqrt 2 / 2))
                             (/ 2 + sin theta * (sqrt 2 / 2))
          | radial => RadialGradient (/ 2) (/ 2) 0 (/ 2) (/ 2) (/ 2)
          end;
        stops := stopCalls settings |} /\
  axisParameter settings 1 1 0 0 = Some t /\
  outputPixel (sampleImage p 1 1) settings canvas 0 0 =
  Some (maskedPixel (profileOf settings t) p) /\
  alpha (maskedPixel (profileOf settings t) p) =
  to_u8 (IZR (alpha p) * profileOf settings t) /\
  (forall w h x y, (0 < w)%nat ->
                   exists t', axisParameter settings w h x y = Some t').
Proof.
  intros Hp t.
  split.
  { rewrite maskGradient_ok. unfold axisGeometry.
    destruct (type settings).
    - now rewrite linearAxis_single.
    - now rewrite radialAxis_single. }
  split; [apply single_pixel_axisParameter |].
  split.
  { apply (composite_pixel (sampleImage p 1 1) settings canvas 0 0 t).
    - simpl. lia.
    - simpl. lia.
    - apply single_pixel_axisParameter. }
  split; [now apply alpha_maskedPixel |].
  intros w h x y Hw. now apply axisParameter_defined.
Qed.

Lemma C8_single_pixel_witness :
  wfPixel opaqueGrey /\
  axisParameter radialSettings 1 1 0 0 = Some 0 /\
  outputPixel (sampleImage opaqueGrey 1 1) radialSettings blankCanvas 0 0 =
  Some (maskedPixel (profileOf radialSettings 0) opaqueGrey) /\
  alpha (maskedPixel (profileOf radialSettings 0) opaqueGrey) =
  to_u8 (IZR 255 * profileOf radialSettings 0).
Proof.
  split; [exact wf_opaqueGrey |].
  destruct (C8_single_pixel radialSettings blankCanvas opaqueGrey
                            wf_opaqueGrey) as (_ & Ht & Hout & Ha & _).
  split; [exact Ht |]. split; [exact Hout | exact Ha].
Defined.

(** C9: the exported name is the original name with the part after the last
    dot removed when there is a dot, followed by '-fade' and the '.png'
    extension; every derived name ends in '-fade.png'. *)
Theorem C9_download_name (fileName : string) :
  (exists base, App.downloadName fileName = (base ++ "-fade.png")%string) /\
  (App.noDot fileName = true ->
   App.downloadName fileName = (fileName ++ "-fade.png")%string) /\
  (forall stem extension,
      fileName = (stem ++ String "." extension)%string ->
      App.noDot extension = true ->
      App.downloadName fileName = (stem ++ "-fade.png")%string).
Proof.
  split; [apply downloadName_suffix |].
  split; [apply downloadName_plain |].
  intros stem extension -> Hext. now apply downloadName_extension.
Qed.

Lemma C9_download_name_witness :
  ("holiday.photo.jpeg" = "holiday.photo" ++ String "." "jpeg")%string /\
  App.noDot "jpeg" = true /\
  App.downloadName "holiday.photo.jpeg" = "holiday.photo-fade.png"%string.
Proof.
  split; [reflexivity |]. split; [reflexivity |].
  destruct (C9_download_name "holiday.photo.jpeg") as (_ & _ & Hext).
  apply (Hext "holiday.photo"%string "jpeg"%string); reflexivity.
Defined.

(** C10: the four offsets handed to [addColorStop] are 0, the smaller and
    the larger of the two clamped values, and 1; each lies in [0,1] and they
    are in non-decreasing order, so no call throws, whatever the values of
    startPoint and endPoint and whatever stops the gradient already has. *)
Theorem C10_stop_offsets_safe (settings : GradientSettings)
        (g : CanvasGradient) :
  applyUserStops settings g = addColorStops (stopCalls settings) g /\
  map fst (stopCalls settings) =
  [0; Rmin (safeStart settings) (safeEnd settings);
   Rmax (safeStart settings) (safeEnd settings); 1] /\
  Forall (fun offset => 0 <= offset <= 1) (map fst (stopCalls settings)) /\
  (0 <= Rmin (safeStart settings) (safeEnd settings) /\
   Rmin (safeStart settings) (safeEnd settings)
   <= Rmax (safeStart settings) (safeEnd settings) /\
   Rmax (safeStart settings) (safeEnd settings) <= 1) /\
  exists g', applyUserStops settings g = Ok g'.
Proof.
  pose proof (lo_hi_range settings) as Hr. unfold lo, hi in Hr.
  split; [apply applyUserStops_calls |].
  split; [apply stopCalls_offsets |].
  split.
  - rewrite stopCalls_offsets. unfold lo, hi.
    repeat (apply Forall_cons; [lra |]). apply Forall_nil.
  - split; [exact Hr | apply applyUserStops_total].
Qed.

(** ** Further properties of the code *)

(** X1: the alpha factor of the mask is a number between 0 and 1 at every
    offset, and along the axis it never increases when invert is off and
    never decreases when invert is on. *)
Theorem X1_factor_bounded_and_monotone
        (settings : GradientSettings) (w h : nat) (t1 t2 : R) :
  t1 <= t2 ->
  exists f1 f2,
    alphaFactor settings w h t1 = Some f1 /\
    alphaFactor settings w h t2 = Some f2 /\
    0 <= f1 <= 1 /\ 0 <= f2 <= 1 /\
    (invert settings = false -> f2 <= f1) /\
    (invert settings = true -> f1 <= f2).
Proof.
  intros Ht. exists (profileOf settings t1), (profileOf settings t2).
  split; [apply alphaFactor_profile |].
  split; [apply alphaFactor_profile |].
  split; [apply profileOf_range |].
  split; [apply profileOf_range |].
  split; intros Hinv.
  - now apply profileOf_falls.
  - now apply profileOf_rises.
Qed.

Lemma X1_factor_bounded_and_monotone_witness :
  / 4 <= 3 / 4 /\
  exists f1 f2,
    alphaFactor defaultSettings 4 3 (/ 4) = Some f1 /\
    alphaFactor defaultSettings 4 3 (3 / 4) = Some f2 /\
    0 <= f1 <= 1 /\ 0 <= f2 <= 1 /\
    (invert defaultSettings = false -> f2 <= f1) /\
    (invert defaultSettings = true -> f1 <= f2).
Proof.
  assert (H : / 4 <= 3 / 4) by lra.
  split; [exact H |].
  exact (X1_factor_bounded_and_monotone defaultSettings 4 3 (/ 4) (3 / 4) H).
Defined.

(** X2: the effect only ever removes opacity: every pixel it leaves is a
    well-formed 8-bit pixel whose alpha is at most the alpha of the image
    pixel at that place. *)
Theorem X2_alpha_never_increases
        (image : Image) (settings : GradientSettings) (canvas : Canvas)
        (x y : nat) :
  wfImage image ->
  (x < width image)%nat -> (y < height image)%nat ->
  exists p,
    outputPixel image settings canvas x y = Some p /\
    wfPixel p /\
    (alpha p <= alpha (pixels image x y))%Z.
Proof.
  intros Hwf Hx Hy.
  destruct (axisParameter_defined settings (width image) (height image) x y)
    as (t & Ht); [lia |].
  eexists. split; [now apply (composite_pixel _ _ _ x y t) |].
  split; [apply wf_maskedPixel |].
  rewrite alpha_maskedPixel by (now apply Hwf).
  destruct (Hwf x y Hx Hy) as (_ & _ & _ & Ha).
  apply (to_u8_share_le _ _ Ha (profileOf_range settings t)).
Qed.

Lemma X2_alpha_never_increases_witness :
  wfImage (sampleImage opaqueGrey 2 3) /\
  (1 < width (sampleImage opaqueGrey 2 3))%nat /\
  (2 < height (sampleImage opaqueGrey 2 3))%nat /\
  exists p,
    outputPixel (sampleImage opaqueGrey 2 3) defaultSettings blankCanvas 1 2
    = Some p /\
    wfPixel p /\ (alpha p <= 255)%Z.
Proof.
  assert (Hwf : wfImage (sampleImage opaqueGrey 2 3))
    by apply wf_sampleImage, wf_opaqueGrey.
  split; [exact Hwf |].
  split; [simpl; lia |].
  split; [simpl; lia |].
  apply (X2_alpha_never_increases (sampleImage opaqueGrey 2 3) defaultSettings
                                  blankCanvas 1 2 Hwf); simpl; lia.
Defined.

(** X3: on the two plateaus the effect is exact.  Where the factor is 1 (up
    to [lo] with invert off, from [hi] on and beyond [lo] with invert on) the
    pixel read back has the alpha of the image pixel, and an opaque image
    pixel reads back exactly as it is; where the factor is 0 (the other
    plateau) the pixel reads back as transparent black. *)
Theorem X3_plateaus_keep_or_clear
        (image : Image) (settings : GradientSettings) (canvas : Canvas)
        (x y : nat) (t : R) :
  wfImage image ->
  (x < width image)%nat -> (y < height image)%nat ->
  axisParameter settings (width image) (height image) x y = Some t ->
  exists p,
    outputPixel image settings canvas x y = Some p /\
    (t <= lo settings ->
     if invert settings
     then p = transparentBlack
     else alpha p = alpha (pixels image x y) /\
          (alpha (pixels image x y) = 255%Z -> p = pixels image x y)) /\
    (lo settings < t -> hi settings <= t ->
     if invert settings
     then alpha p = alpha (pixels image x y) /\
          (alpha (pixels image x y) = 255%Z -> p = pixels image x y)
     else p = transparentBlack).
Proof.
  intros Hwf Hx Hy Ht.
  pose proof (Hwf x y Hx Hy) as Hsrc.
  exists (maskedPixel (profileOf settings t) (pixels image x y)).
  split; [now apply composite_pixel |].
  split.
  - intros Hlo. rewrite profileOf_before by assumption.
    unfold plateauBefore. destruct (invert settings).
    + now apply maskedPixel_zero.
    + now apply maskedPixel_kept.
  - intros Hlo Hhi. rewrite profileOf_after by assumption.
    unfold plateauAfter. destruct (invert settings).
    + now apply maskedPixel_kept.
    + now apply maskedPixel_zero.
Qed.

Lemma X3_plateaus_keep_or_clear_witness :
  wfImage (sampleImage opaqueGrey 4 3) /\
  (0 < width (sampleImage opaqueGrey 4 3))%nat /\
  (2 < height (sampleImage opaqueGrey 4 3))%nat /\
  axisParameter (withFade 20 60 defaultSettings) 4 3 0 2 = Some (7 / 10) /\
  exists p,
    outputPixel (sampleImage opaqueGrey 4 3) (withFade 20 60 defaultSettings)
                blankCanvas 0 2 = Some p /\
    (7 / 10 <= lo (withFade 20 60 defaultSettings) ->
     if invert (withFade 20 60 defaultSettings)
     then p = transparentBlack
     else alpha p = 255%Z /\ (255 = 255 -> p = opaqueGrey)%Z) /\
    (lo (withFade 20 60 defaultSettings) < 7 / 10 ->
     hi (withFade 20 60 defaultSettings) <= 7 / 10 ->
     if invert (withFade 20 60 defaultSettings)
     then alpha p = 255%Z /\ (255 = 255 -> p = opaqueGrey)%Z
     else p = transparentBlack).
Proof.
  assert (Hwf : wfImage (sampleImage opaqueGrey 4 3))
    by apply wf_sampleImage, wf_opaqueGrey.
  split; [exact Hwf |].
  split; [simpl; lia |].
  split; [simpl; lia |].
  split; [exact rowFactor_4_3_bottom_offset |].
  apply (X3_plateaus_keep_or_clear (sampleImage opaqueGrey 4 3)
                                   (withFade 20 60 defaultSettings)
                                   blankCanvas 0 2 (7 / 10) Hwf);
    [simpl; lia | simpl; lia | exact rowFactor_4_3_bottom_offset].
Defined.

(** X4: what an earlier run left on the canvas has no influence: the effect
    run on any two canvases gives the same result, running it again on its
    own result changes nothing, and it leaves the drawing state in
    source-over. *)
Theorem X4_render_forgets_the_canvas
        (image : Image) (settings : GradientSettings) (c1 c2 : Canvas) :
  composite (Some image) settings c1 = composite (Some image) settings c2 /\
  exists out,
    composite (Some image) settings c1 = Ok out /\
    composite (Some image) settings out = Ok out /\
    globalCompositeOperation out = source_over.
Proof.
  split; [apply composite_forgets_canvas |].
  destruct (composite_result image settings c1) as (out & Hout & _).
  exists out. split; [exact Hout |].
  split; [now rewrite (composite_forgets_canvas image settings out c1) |].
  unfold composite in Hout. cbv zeta in Hout.
  rewrite prepareGradient_ok in Hout. cbn [bind] in Hout.
  rewrite applyUserStops_placed in Hout by reflexivity. cbn [bind] in Hout.
  injection Hout as <-. reflexivity.
Qed.

(** X5: under the linear shape the axis is long enough for the whole bitmap:
    whatever the angle, the axis parameter of every pixel of the bitmap lies
    strictly between 0 and 1, so no pixel falls beyond an end of the axis. *)
Theorem X5_linear_axis_covers_bitmap
        (settings : GradientSettings) (w h x y : nat) :
  type settings = linear -> (x < w)%nat -> (y < h)%nat ->
  exists t, axisParameter settings w h x y = Some t /\ 0 < t < 1.
Proof.
  intros Hty Hx Hy. rewrite axisParameter_geometry.
  unfold axisGeometry. rewrite Hty.
  rewrite linear_offset by lia. cbv zeta.
  pose proof (projection_inside (angle settings) w h x y Hx Hy) as Hp.
  cbv zeta in Hp.
  eexists. split; [reflexivity | lra].
Qed.

Lemma X5_linear_axis_covers_bitmap_witness :
  type defaultSettings = linear /\ (3 < 4)%nat /\ (2 < 3)%nat /\
  exists t, axisParameter defaultSettings 4 3 3 2 = Some t /\ 0 < t < 1.
Proof.
  split; [reflexivity |]. split; [lia |]. split; [lia |].
  apply (X5_linear_axis_covers_bitmap defaultSettings 4 3 3 2);
    [reflexivity | lia | lia].
Defined.

(** X6: the angle counts modulo a full turn: the effect run with the angle
    raised by 360 degrees gives the same result (so the two ends of the angle
    slider, 0 and 360, give the same picture). *)
Theorem X6_angle_full_turn
        (image : option Image) (a : R) (settings : GradientSettings)
        (canvas : Canvas) :
  composite image (withAngle (a + 360) settings) canvas =
  composite image (withAngle a settings) canvas.
Proof.
  destruct image as [image |]; [| reflexivity].
  unfold composite. cbv zeta.
  rewrite !prepareGradient_ok. cbn [bind].
  unfold axisGeometry. cbn [withAngle type angle].
  destruct (type settings); [| reflexivity].
  now rewrite linearAxis_full_turn.
Qed.

(** X7: under the linear shape, turning the angle by 180 degrees reverses the
    axis: a pixel with axis parameter t gets the axis parameter 1 - t. *)
Theorem X7_angle_half_turn_reverses
        (a : R) (settings : GradientSettings) (w h x y : nat) :
  type settings = linear -> (0 < w)%nat ->
  exists t,
    axisParameter (withAngle a settings) w h x y = Some t /\
    axisParameter (withAngle (a + 180) settings) w h x y = Some (1 - t).
Proof.
  intros Hty Hw. rewrite !axisParameter_geometry. unfold axisGeometry.
  cbn [withAngle type angle]. rewrite Hty.
  now apply linear_half_turn.
Qed.

Lemma X7_angle_half_turn_reverses_witness :
  type defaultSettings = linear /\ (0 < 4)%nat /\
  exists t,
    axisParameter (withAngle 45 defaultSettings) 4 3 1 2 = Some t /\
    axisParameter (withAngle (45 + 180) defaultSettings) 4 3 1 2
    = Some (1 - t).
Proof.
  split; [reflexivity |]. split; [lia |].
  apply (X7_angle_half_turn_reverses 45 defaultSettings 4 3 1 2);
    [reflexivity | lia].
Defined.

(** X8: under the radial shape the axis parameter grows with the distance
    from the centre of the bitmap: of two pixels, the one whose centre is
    not nearer to the centre of the bitmap has the larger or equal axis
    parameter, and so the smaller or equal factor when invert is off and the
    larger or equal factor when invert is on. *)
Theorem X8_radial_grows_with_distance
        (settings : GradientSettings) (w h x1 y1 x2 y2 : nat) :
  type settings = radial -> (0 < w)%nat ->
  centreDistance2 w h x1 y1 <= centreDistance2 w h x2 y2 ->
  exists t1 t2 f1 f2,
    axisParameter settings w h x1 y1 = Some t1 /\
    axisParameter settings w h x2 y2 = Some t2 /\
    0 <= t1 <= t2 /\
    alphaFactor settings w h t1 = Some f1 /\
    alphaFactor settings w h t2 = Some f2 /\
    (invert settings = false -> f2 <= f1) /\
    (invert settings = true -> f1 <= f2).
Proof.
  intros Hty Hw Hd.
  pose proof (radius_pos w h Hw) as Hr.
  assert (Ht : 0 <= sqrt (centreDistance2 w h x1 y1)
                    / (Rmax (INR w) (INR h) / 2)
               <= sqrt (centreDistance2 w h x2 y2)
                  / (Rmax (INR w) (INR h) / 2)).
  { split.
    - apply Rmult_le_pos; [apply sqrt_pos |].
      left. now apply Rinv_0_lt_compat.
    - apply quotient_monotone; [assumption |]. now apply sqrt_le_1_alt. }
  do 2 eexists.
  exists (profileOf settings (sqrt (centreDistance2 w h x1 y1)
                              / (Rmax (INR w) (INR h) / 2))),
         (profileOf settings (sqrt (centreDistance2 w h x2 y2)
                              / (Rmax (INR w) (INR h) / 2))).
  split; [now apply radial_axisParameter |].
  split; [now apply radial_axisParameter |].
  split; [exact Ht |].
  split; [apply alphaFactor_profile |].
  split; [apply alphaFactor_profile |].
  split; intros Hinv.
  - apply profileOf_falls; [assumption | apply Ht].
  - apply profileOf_rises; [assumption | apply Ht].
Qed.

Lemma X8_radial_grows_with_distance_witness :
  type radialSettings = radial /\ (0 < 4)%nat /\
  centreDistance2 4 3 2 1 <= centreDistance2 4 3 0 0 /\
  exists t1 t2 f1 f2,
    axisParameter radialSettings 4 3 2 1 = Some t1 /\
    axisParameter radialSettings 4 3 0 0 = Some t2 /\
    0 <= t1 <= t2 /\
    alphaFactor radialSettings 4 3 t1 = Some f1 /\
    alphaFactor radialSettings 4 3 t2 = Some f2 /\
    (invert radialSettings = false -> f2 <= f1) /\
    (invert radialSettings = true -> f1 <= f2).
Proof.
  assert (Hd : centreDistance2 4 3 2 1 <= centreDistance2 4 3 0 0)
    by (unfold centreDistance2; simpl INR; lra).
  split; [reflexivity |]. split; [lia |]. split; [exact Hd |].
  apply (X8_radial_grows_with_distance radialSettings 4 3 2 1 0 0);
    [reflexivity | lia | exact Hd].
Defined.

(** X9: under the radial shape the radius of the circle is half the larger
    side of the bitmap: a pixel has an axis parameter above 1 exactly when
    the distance of its centre from the centre of the bitmap exceeds half the
    larger side.  Whatever the fade points, such a pixel reads back as
    transparent black when invert is off and keeps its alpha when invert is
    on.  The four corner pixels of a square bitmap of side 4 or more are such
    pixels. *)
Theorem X9_radial_beyond_the_circle
        (image : Image) (settings : GradientSettings) (canvas : Canvas)
        (x y : nat) :
  type settings = radial -> wfImage image ->
  (x < width image)%nat -> (y < height image)%nat ->
  exists t p,
    axisParameter settings (width image) (height image) x y = Some t /\
    (1 < t <->
     Rmax (INR (width image)) (INR (height image)) / 2
     * (Rmax (INR (width image)) (INR (height image)) / 2)
     < centreDistance2 (width image) (height image) x y) /\
    outputPixel image settings canvas x y = Some p /\
    (1 < t ->
     if invert settings
     then alpha p = alpha (pixels image x y)
     else p = transparentBlack) /\
    (height image = width image -> (4 <= width image)%nat ->
     (x = 0 \/ x = width image - 1)%nat ->
     (y = 0 \/ y = width image - 1)%nat -> 1 < t).
Proof.
  intros Hty Hwf Hx Hy.
  pose proof (Hwf x y Hx Hy) as Hsrc.
  assert (Hw : (0 < width image)%nat) by lia.
  set (t := sqrt (centreDistance2 (width image) (height image) x y)
            / (Rmax (INR (width image)) (INR (height image)) / 2)).
  assert (Ht : axisParameter settings (width image) (height image) x y
               = Some t) by now apply radial_axisParameter.
  exists t, (maskedPixel (profileOf settings t) (pixels image x y)).
  split; [exact Ht |].
  split; [apply beyond_circle;
          [apply centreDistance2_nonneg | now apply radius_pos] |].
  split; [now apply composite_pixel |].
  split.
  - intros Hout. destruct (lo_hi_range settings) as (_ & Hlh & Hh1).
    rewrite profileOf_after by lra.
    unfold plateauAfter. destruct (invert settings).
    + now apply maskedPixel_kept.
    + now apply maskedPixel_zero.
  - intros Hsq Hn Hcx Hcy. unfold t. rewrite Hsq.
    now apply square_corner_outside.
Qed.

Lemma X9_radial_beyond_the_circle_witness :
  type radialSettings = radial /\
  wfImage (sampleImage opaqueGrey 6 5) /\
  (0 < width (sampleImage opaqueGrey 6 5))%nat /\
  (4 < height (sampleImage opaqueGrey 6 5))%nat /\
  exists t p,
    axisParameter radialSettings 6 5 0 4 = Some t /\
    (1 < t <->
     Rmax (INR 6) (INR 5) / 2 * (Rmax (INR 6) (INR 5) / 2)
     < centreDistance2 6 5 0 4) /\
    outputPixel (sampleImage opaqueGrey 6 5) radialSettings blankCanvas 0 4
    = Some p /\
    (1 < t ->
     if invert radialSettings
     then alpha p = 255%Z
     else p = transparentBlack) /\
    (5%nat = 6%nat -> (4 <= 6)%nat ->
     (0 = 0 \/ 0 = 6 - 1)%nat -> (4 = 0 \/ 4 = 6 - 1)%nat -> 1 < t).
Proof.
  assert (Hwf : wfImage (sampleImage opaqueGrey 6 5))
    by apply wf_sampleImage, wf_opaqueGrey.
  split; [reflexivity |]. split; [exact Hwf |].
  split; [simpl; lia |]. split; [simpl; lia |].
  apply (X9_radial_beyond_the_circle (sampleImage opaqueGrey 6 5)
                                     radialSettings blankCanvas 0 4);
    [reflexivity | exact Hwf | simpl; lia | simpl; lia].
Defined.

(** X10: no handler of the application changes the shape, which starts as
    linear: after any sequence of actions the shape is linear (the radial
    branch of the effect is never taken from the user interface), and hence
    every pixel of the loaded image has an axis parameter strictly between 0
    and 1. *)
Theorem X10_ui_shape_stays_linear (actions : list AppHandlers.Action) :
  type (AppHandlers.settings (AppHandlers.run actions)) = linear /\
  forall img x y,
    AppHandlers.image (AppHandlers.run actions) = Some img ->
    (x < width img)%nat -> (y < height img)%nat ->
    exists t,
      axisParameter (AppHandlers.settings (AppHandlers.run actions))
                    (width img) (height img) x y = Some t /\
      0 < t < 1.
Proof.
  assert (Hty : type (AppHandlers.settings (AppHandlers.run actions)) = linear)
    by (apply fold_keeps_type; reflexivity).
  split; [exact Hty |].
  intros img x y _ Hx Hy. now apply linear_inside.
Qed.

(** X11: the sliders report values within their bounds (0..360 for the
    angle, 0..100 for the fade points), every handler keeps the settings
    within these bounds, and the reset values lie within them; so in every
    state reached through the user interface the clamping of the effect
    changes nothing: safeStart is startPoint / 100 and safeEnd is
    endPoint / 100. *)
Theorem X11_slider_values_need_no_clamping
        (actions : list AppHandlers.Action) :
  Forall AppHandlers.fromSliders actions ->
  sliderRanges (AppHandlers.settings (AppHandlers.run actions)) /\
  safeStart (AppHandlers.settings (AppHandlers.run actions)) =
  startPoint (AppHandlers.settings (AppHandlers.run actions)) / 100 /\
  safeEnd (AppHandlers.settings (AppHandlers.run actions)) =
  endPoint (AppHandlers.settings (AppHandlers.run actions)) / 100.
Proof.
  intros Hall.
  assert (Hr : sliderRanges (AppHandlers.settings (AppHandlers.run actions)))
    by (apply fold_keeps_ranges; [assumption | apply initial_ranges]).
  split; [exact Hr |]. now apply ranges_need_no_clamping.
Qed.

Lemma X11_slider_values_need_no_clamping_witness :
  Forall AppHandlers.fromSliders
         [AppHandlers.StartSlider 30; AppHandlers.ResetClicked;
          AppHandlers.EndSlider 100; AppHandlers.InvertToggled true] /\
  sliderRanges
    (AppHandlers.settings
       (AppHandlers.run
          [AppHandlers.StartSlider 30; AppHandlers.ResetClicked;
           AppHandlers.EndSlider 100; AppHandlers.InvertToggled true])) /\
  safeStart
    (AppHandlers.settings
       (AppHandlers.run
          [AppHandlers.StartSlider 30; AppHandlers.ResetClicked;
           AppHandlers.EndSlider 100; AppHandlers.InvertToggled true])) =
  20 / 100 /\
  safeEnd
    (AppHandlers.settings
       (AppHandlers.run
          [AppHandlers.StartSlider 30; AppHandlers.ResetClicked;
           AppHandlers.EndSlider 100; AppHandlers.InvertToggled true])) =
  100 / 100.
Proof.
  assert (Hall : Forall AppHandlers.fromSliders
                        [AppHandlers.StartSlider 30; AppHandlers.ResetClicked;
                         AppHandlers.EndSlider 100;
                         AppHandlers.InvertToggled true]).
  { repeat (apply Forall_cons; [simpl; try lra; exact I |]).
    apply Forall_nil. }
  split; [exact Hall |].
  exact (X11_slider_values_need_no_clamping _ Hall).
Defined.

(** X12: under the linear shape, and when the two fade bounds differ, the
    invert switch is the same as looking at the axis from its other end:
    turning the angle by 180 degrees, replacing fadeStart by 100 - fadeEnd
    and fadeEnd by 100 - fadeStart, and flipping invert leaves every pixel of
    the result unchanged. *)
Theorem X12_invert_is_a_half_turn
        (image : Image) (settings : GradientSettings) (canvas : Canvas)
        (x y : nat) :
  type settings = linear -> wfImage image ->
  (x < width image)%nat -> (y < height image)%nat ->
  lo settings < hi settings ->
  outputPixel image (mirrored settings) canvas x y =
  outputPixel image settings canvas x y.
Proof.
  intros Hty Hwf Hx Hy Hlh.
  destruct (axisParameter_mirrored settings (width image) (height image) x y
                                   Hty ltac:(lia)) as (t & Ht & Htm).
  rewrite (composite_pixel _ (mirrored settings) _ x y (1 - t)) by assumption.
  rewrite (composite_pixel _ settings _ x y t) by assumption.
  now rewrite profileOf_mirrored.
Qed.

Lemma X12_invert_is_a_half_turn_witness :
  type defaultSettings = linear /\
  wfImage (sampleImage opaqueGrey 4 3) /\
  (1 < width (sampleImage opaqueGrey 4 3))%nat /\
  (2 < height (sampleImage opaqueGrey 4 3))%nat /\
  lo defaultSettings < hi defaultSettings /\
  outputPixel (sampleImage opaqueGrey 4 3) (mirrored defaultSettings)
              blankCanvas 1 2 =
  outputPixel (sampleImage opaqueGrey 4 3) defaultSettings blankCanvas 1 2.
Proof.
  assert (Hwf : wfImage (sampleImage opaqueGrey 4 3))
    by apply wf_sampleImage, wf_opaqueGrey.
  assert (Hlh : lo defaultSettings < hi defaultSettings).
  { destruct (bounds_of defaultSettings (/ 5) (4 / 5)) as [Hlo Hhi];
      [simpl; lra | simpl; lra | lra | lra |].
    rewrite Hlo, Hhi. lra. }
  split; [reflexivity |]. split; [exact Hwf |].
  split; [simpl; lia |]. split; [simpl; lia |]. split; [exact Hlh |].
  apply (X12_invert_is_a_half_turn (sampleImage opaqueGrey 4 3)
                                   defaultSettings blankCanvas 1 2);
    [reflexivity | exact Hwf | simpl; lia | simpl; lia | exact Hlh].
Defined.
